(** * MT Photos AI server (openvino/server.py): the serving shell

    A shallow embedding of [src/openvino/server.py]: the result normalizer
    ([to_fixed], [trans_result] and the embedding formatter), the
    authentication dependency, the lazy model registry, the route handlers
    and the idle-restart watchdog.

    Python floats are IEEE binary64 values; they are modelled with the
    [spec_float] type of the standard library at precision 53 and maximal
    exponent 1024.  The inference engines, the image decoder and the model
    loaders are external collaborators and are taken as fields of an
    environment record. *)

From Stdlib Require Import ZArith NArith List String Ascii Bool Lia RelationClasses.
From Stdlib Require Import Decimal DecimalString.
From Stdlib Require Import SpecFloat.
Import ListNotations.

Local Open Scope Z_scope.
Local Open Scope string_scope.

(* ===================================================================== *)
(** ** Python floats and their renderings *)
(* ===================================================================== *)

Module PyFloat.

Definition prec : Z := 53.
Definition emax : Z := 1024.

Definition float := spec_float.

Definition is_finite (x : float) : bool :=
  match x with
  | S754_zero _ | S754_finite _ _ _ => true
  | S754_infinity _ | S754_nan => false
  end.

(** [x - y] on binary64. *)
Definition sub (x y : float) : float := SFsub prec emax x y.

(** The binary64 value nearest to [num / den] (ties to even), with sign
    [s]; this is what [strtod] returns for a decimal literal.
    [num >= 0] and [den > 0]. *)
Definition of_ratio (s : bool) (num den : Z) : float :=
  match num with
  | Z0 => S754_zero s
  | _ =>
      let '(q, e, l) := SFdiv_core_binary prec emax num 0 den 0 in
      binary_round_aux prec emax s q e l
  end.

(** A finite non-zero float [m * 2^e] as a fraction [(num, den)]. *)
Definition to_ratio (m : positive) (e : Z) : Z * Z :=
  match e with
  | Zneg p => (Zpos m, Z.pow 2 (Zpos p))
  | _ => (Zpos m * Z.pow 2 e, 1)
  end.

(** [num / den] rounded to the nearest integer, ties to even. *)
Definition round_half_even (num den : Z) : Z :=
  let q := num / den in
  let r := num mod den in
  match Z.compare (2 * r) den with
  | Lt => q
  | Gt => q + 1
  | Eq => if Z.even q then q else q + 1
  end.

(** The magnitude of [m * 2^e] scaled by [10^ndigits] and rounded to an
    integer: the digits that a correctly rounded decimal conversion to
    [ndigits] places prints. *)
Definition decimal_round (ndigits : nat) (m : positive) (e : Z) : Z :=
  let '(num, den) := to_ratio m e in
  round_half_even (num * Z.pow 10 (Z.of_nat ndigits)) den.

(** *** Decimal digit strings *)

Definition digits_of_Z (z : Z) : string :=
  NilZero.string_of_uint (N.to_uint (Z.to_N z)).

Fixpoint zeros (n : nat) : string :=
  match n with
  | O => EmptyString
  | S n' => String "0" (zeros n')
  end.

Fixpoint take (n : nat) (s : string) : string :=
  match n, s with
  | S n', String c s' => String c (take n' s')
  | _, _ => EmptyString
  end.

Fixpoint drop (n : nat) (s : string) : string :=
  match n, s with
  | S n', String _ s' => drop n' s'
  | _, _ => s
  end.

Definition sign_string (s : bool) : string := if s then "-" else "".

(** The integer [r] printed with its last [ndigits] digits after the
    point: [1234] at two places is ["12.34"], [5] is ["0.05"]. *)
Definition fixed_string (ndigits : nat) (r : Z) : string :=
  let ds := digits_of_Z r in
  let padded := zeros (S ndigits - String.length ds) ++ ds in
  let ilen := (String.length padded - ndigits)%nat in
  match ndigits with
  | O => padded
  | _ => take ilen padded ++ "." ++ drop ilen padded
  end.

(** [format(x, '.<ndigits>f')], as used by [f"{v:.2f}"] and
    ["{:.16f}".format(v)]. *)
Definition format_f (ndigits : nat) (x : float) : string :=
  match x with
  | S754_nan => "nan"
  | S754_infinity s => sign_string s ++ "inf"
  | S754_zero s => sign_string s ++ fixed_string ndigits 0
  | S754_finite s m e => sign_string s ++ fixed_string ndigits (decimal_round ndigits m e)
  end.

(** [round(x, ndigits)]: non-finite values round to themselves; a finite
    value is converted to the correctly rounded decimal with [ndigits]
    places and that decimal is read back as a float. *)
Definition round (x : float) (ndigits : nat) : float :=
  match x with
  | S754_finite s m e =>
      of_ratio s (decimal_round ndigits m e) (Z.pow 10 (Z.of_nat ndigits))
  | _ => x
  end.

(** *** [repr]: the shortest digit string that reads back as the float *)

(** [d * 10^scale] as a fraction. *)
Definition decimal_ratio (d scale : Z) : Z * Z :=
  match scale with
  | Zneg p => (d, Z.pow 10 (Zpos p))
  | _ => (d * Z.pow 10 scale, 1)
  end.

(** Does the decimal [d * 10^scale] read back as [m * 2^e]? *)
Definition reads_back (m : positive) (e : Z) (d scale : Z) : bool :=
  let '(num, den) := decimal_ratio d scale in
  match of_ratio false num den with
  | S754_finite _ m' e' => Pos.eqb m m' && Z.eqb e e'
  | _ => false
  end.

(** The decimal exponent [p] with [10^p <= num/den < 10^(p+1)], searched
    downwards from an upper estimate [hi] with [fuel] steps. *)
Fixpoint exponent10_from (fuel : nat) (num den : Z) (hi : Z) : Z :=
  match fuel with
  | O => hi
  | S fuel' =>
      let '(n10, d10) := decimal_ratio 1 hi in
      if Z.leb (n10 * den) (d10 * num) then hi
      else exponent10_from fuel' num den (hi - 1)
  end.

Definition exponent10 (num den : Z) : Z :=
  (* log10 (num/den) < (log2 num + 1 - log2 den) * 0.30103, rounded up *)
  let hi := ((Z.log2 num + 1 - Z.log2 den) * 30103) / 100000 + 1 in
  exponent10_from 8 num den hi.

(** The candidates with [n] significant digits: the decimal just below
    and the one just above the float.  [None] when neither reads back;
    otherwise the nearer of those that do, as [(d, scale)]. *)
Definition candidate (m : positive) (e : Z) (p : Z) (n : nat)
  : option (Z * Z) :=
  let '(num, den) := to_ratio m e in
  let scale := p - Z.of_nat n + 1 in
  (* num/den / 10^scale as a fraction sn/sd *)
  let '(sn, sd) :=
    match scale with
    | Zneg k => (num * Z.pow 10 (Zpos k), den)
    | _ => (num, den * Z.pow 10 scale)
    end in
  let lo := sn / sd in
  let r := sn mod sd in
  let hi := lo + 1 in
  let lo_ok := reads_back m e lo scale in
  let hi_ok := negb (Z.eqb r 0) && reads_back m e hi scale in
  match lo_ok, hi_ok with
  | false, false => None
  | true, false => Some (lo, scale)
  | false, true => Some (hi, scale)
  | true, true =>
      match Z.compare (2 * r) sd with
      | Lt => Some (lo, scale)
      | Gt => Some (hi, scale)
      | Eq => Some (if Z.even lo then lo else hi, scale)
      end
  end.

Fixpoint shortest_from (fuel : nat) (m : positive) (e : Z) (p : Z) (n : nat)
  : Z * Z :=
  match candidate m e p n with
  | Some c => c
  | None =>
      match fuel with
      | O => (0, 0)
      | S fuel' => shortest_from fuel' m e p (S n)
      end
  end.

Fixpoint strip_zeros_rev (l : list ascii) : list ascii :=
  match l with
  | "0"%char :: l' => strip_zeros_rev l'
  | _ => l
  end.

Definition strip_trailing_zeros (s : string) : string :=
  string_of_list_ascii
    (List.rev (strip_zeros_rev (List.rev (list_ascii_of_string s)))).

(** The shortest digits of [m * 2^e] and the position [decpt] of the
    decimal point: the value is [0.d1d2...dn * 10^decpt]. *)
Definition shortest_digits (m : positive) (e : Z) : string * Z :=
  let '(num, den) := to_ratio m e in
  let p := exponent10 num den in
  let '(d, scale) := shortest_from 17 m e p 1 in
  let ds := digits_of_Z d in
  (strip_trailing_zeros ds, scale + Z.of_nat (String.length ds)).

(** The exponent suffix of the scientific form: a sign and at least two
    digits. *)
Definition exponent_string (x : Z) : string :=
  let ds := digits_of_Z (Z.abs x) in
  (if Z.ltb x 0 then "-" else "+")
    ++ zeros (2 - String.length ds) ++ ds.

(** [repr(x)], which is also [str(x)], from the shortest digits: the
    scientific form when [decpt <= -4] or [decpt > 16], else the
    positional form, which always shows a point. *)
Definition repr_finite (ds : string) (decpt : Z) : string :=
  let n := String.length ds in
  if Z.leb decpt (-4) || Z.ltb 16 decpt then
    take 1 ds
      ++ (match drop 1 ds with EmptyString => "" | rest => "." ++ rest end)
      ++ "e" ++ exponent_string (decpt - 1)
  else if Z.leb decpt 0 then
    "0." ++ zeros (Z.to_nat (- decpt)) ++ ds
  else if Z.leb (Z.of_nat n) decpt then
    ds ++ zeros (Z.to_nat decpt - n) ++ ".0"
  else
    take (Z.to_nat decpt) ds ++ "." ++ drop (Z.to_nat decpt) ds.

Definition repr (x : float) : string :=
  match x with
  | S754_nan => "nan"
  | S754_infinity s => sign_string s ++ "inf"
  | S754_zero s => sign_string s ++ "0.0"
  | S754_finite s m e =>
      let '(ds, decpt) := shortest_digits m e in
      sign_string s ++ repr_finite ds decpt
  end.

(** A decimal literal [num / den] of the given sign, as Python reads it. *)
Definition literal (s : bool) (num den : Z) : float := of_ratio s num den.

End PyFloat.

(* ===================================================================== *)
(** ** Reading a rendered number back: how many decimal places it shows *)
(* ===================================================================== *)

Definition is_digit (c : ascii) : bool :=
  let n := nat_of_ascii c in
  Nat.leb 48 n && Nat.leb n 57.

Fixpoint all_digits (s : string) : bool :=
  match s with
  | EmptyString => true
  | String c s' => is_digit c && all_digits s'
  end.

(** The text before and after the first point, when there is one. *)
Fixpoint split_point (s : string) : option (string * string) :=
  match s with
  | EmptyString => None
  | String c s' =>
      if Ascii.eqb c "."%char then Some (EmptyString, s')
      else
        match split_point s' with
        | Some (i, f) => Some (String c i, f)
        | None => None
        end
  end.

(** [decimal_places s = Some k] when [s] is an optional minus sign, at
    least one digit, a point and exactly [k] digits; [None] for every other
    string (["nan"], ["1e+16"], ["12"]). *)
Definition decimal_places (s : string) : option nat :=
  let body :=
    match s with
    | String "-"%char rest => rest
    | _ => s
    end in
  match split_point body with
  | Some (String c i, f) =>
      if all_digits (String c i) && all_digits f
      then Some (String.length f) else None
  | _ => None
  end.

(* ===================================================================== *)
(** ** The result normalizer *)
(* ===================================================================== *)

Import PyFloat.

(** [def to_fixed(num): return str(round(num, 2))] *)
Definition to_fixed (num : float) : string := repr (round num 2).

(** One corner [[x, y]] of a detected quadrilateral. *)
Record point := { at0 : float; at1 : float }.

(** [dt_box]: the four corners, [dt_box[0]] to [dt_box[3]]. *)
Record quad := { corner0 : point; corner1 : point; corner2 : point; corner3 : point }.

(** One raw detection [res_i = [dt_box, text, score]]. *)
Record detection := { res_box : quad; res_text : string; res_score : float }.

(** The [box] dict built for a detection. *)
Record box := { x : string; y : string; width : string; height : string }.

(** The dict [{'texts': ..., 'scores': ..., 'boxes': ...}]. *)
Record ocr_result := { texts : list string; scores : list string; boxes : list box }.

Definition make_box (dt_box : quad) : box :=
  {| x := to_fixed (at0 (corner0 dt_box));
     y := to_fixed (at1 (corner0 dt_box));
     width := to_fixed (sub (at0 (corner1 dt_box)) (at0 (corner0 dt_box)));
     height := to_fixed (sub (at1 (corner2 dt_box)) (at1 (corner0 dt_box))) |}.

(** One turn of the [for res_i in result] loop: three appends. *)
Definition trans_step (acc : ocr_result) (res_i : detection) : ocr_result :=
  let dt_box := res_box res_i in
  let box := make_box dt_box in
  {| boxes := boxes acc ++ [box];
     texts := texts acc ++ [res_text res_i];
     scores := scores acc ++ [format_f 2 (res_score res_i)] |}.

Definition trans_result (result : option (list detection)) : ocr_result :=
  let texts := [] in
  let scores := [] in
  let boxes := [] in
  match result with
  | None => {| texts := texts; scores := scores; boxes := boxes |}
  | Some result =>
      fold_left trans_step result
        {| texts := texts; scores := scores; boxes := boxes |}
  end.

(** [["{:.16f}".format(vec) for vec in result]] *)
Definition format_embedding (result : list float) : list string :=
  map (fun vec => format_f 16 vec) result.

(* ===================================================================== *)
(** ** The process: globals, collaborators and effects *)
(* ===================================================================== *)

(** The three model kinds, one global slot each. *)
Inductive kind := OCR | ClipImage | ClipText.

Definition kind_eqb (a b : kind) : bool :=
  match a, b with
  | OCR, OCR | ClipImage, ClipImage | ClipText, ClipText => true
  | _, _ => false
  end.

(** An opaque handle on a loaded model. *)
Inductive handle := Handle (id : nat).

(** A decoded pixel buffer; [shape] is [(height, width, channels)]. *)
Record image := { shape : Z * Z * Z; pixels : list Byte.byte }.

(** What a collaborator call gives: the message of the [Exception] it
    raised, or its value. *)
Definition fallible (A : Type) : Type := string + A.

(** The configuration read at import time and the external collaborators
    ([rapidocr_openvino], [utils.clip], [cv2]). *)
Record Env := {
  api_auth_key : string;
  server_restart_time : Z;
  env_auto_load_txt_modal : bool;
  sys_executable : string;
  sys_argv : list string;
  RapidOCR : fallible handle;
  (* [clip.load_img_model()], [clip.load_txt_model()] *)
  clip__load_img_model : fallible handle;
  clip__load_txt_model : fallible handle;
  cv2_imdecode : list Byte.byte -> fallible (option image);
  (* [rapid_ocr(img)] returns [(result, elapse)] *)
  rapid_ocr_call : handle -> image -> fallible (option (list detection) * list float);
  (* [clip.process_image(img, model)], [clip.process_txt(text, model)] *)
  clip__process_image : option image -> handle -> fallible (list float);
  clip__process_txt : string -> handle -> fallible (list float)
}.

Inductive exn :=
| HTTPException (status_code : Z) (detail : string)
| Exception (message : string).

(** [str(e)] *)
Definition str_exn (e : exn) : string :=
  match e with
  | HTTPException c d => digits_of_Z c ++ ": " ++ d
  | Exception m => m
  end.

(** A [threading.Timer]: its interval, the time [start()] was called and
    whether [cancel()] was called. *)
Record timer := { interval : Z; started : option Z; cancelled : bool }.

(** What the process did, oldest first. *)
Inductive event :=
| Constructed (k : kind)
| Invoked (k : kind)
| FileRead
| Decoded
| Printed (s : string).

Record state := {
  clock : Z;                      (* wall clock, seconds *)
  timers : list timer;            (* every Timer object created so far *)
  restart_timer : option nat;     (* global: a reference into [timers], or None *)
  rapid_ocr : option handle;
  clip_img_model : option handle;
  clip_txt_model : option handle;
  log : list event
}.

(** Module level: [restart_timer = None], [rapid_ocr = None], ... *)
Definition initial_state (now : Z) : state :=
  {| clock := now; timers := []; restart_timer := None;
     rapid_ocr := None; clip_img_model := None; clip_txt_model := None;
     log := [] |}.

Definition slot (k : kind) (s : state) : option handle :=
  match k with
  | OCR => rapid_ocr s
  | ClipImage => clip_img_model s
  | ClipText => clip_txt_model s
  end.

Definition set_slot (k : kind) (h : option handle) (s : state) : state :=
  {| clock := clock s; timers := timers s; restart_timer := restart_timer s;
     rapid_ocr := match k with OCR => h | _ => rapid_ocr s end;
     clip_img_model := match k with ClipImage => h | _ => clip_img_model s end;
     clip_txt_model := match k with ClipText => h | _ => clip_txt_model s end;
     log := log s |}.

Definition set_timers (ts : list timer) (s : state) : state :=
  {| clock := clock s; timers := ts; restart_timer := restart_timer s;
     rapid_ocr := rapid_ocr s; clip_img_model := clip_img_model s;
     clip_txt_model := clip_txt_model s; log := log s |}.

Definition set_restart_timer (r : option nat) (s : state) : state :=
  {| clock := clock s; timers := timers s; restart_timer := r;
     rapid_ocr := rapid_ocr s; clip_img_model := clip_img_model s;
     clip_txt_model := clip_txt_model s; log := log s |}.

Definition set_clock (now : Z) (s : state) : state :=
  {| clock := now; timers := timers s; restart_timer := restart_timer s;
     rapid_ocr := rapid_ocr s; clip_img_model := clip_img_model s;
     clip_txt_model := clip_txt_model s; log := log s |}.

Definition add_log (ev : event) (s : state) : state :=
  {| clock := clock s; timers := timers s; restart_timer := restart_timer s;
     rapid_ocr := rapid_ocr s; clip_img_model := clip_img_model s;
     clip_txt_model := clip_txt_model s; log := log s ++ [ev] |}.

(** How a piece of code ends: it returns, it raises, or [os.execl]
    replaced the process image (with the given path and argument list). *)
Inductive outcome (A : Type) : Type :=
| Returned (a : A)
| Raised (e : exn)
| Replaced (path : string) (argv : list string).

Arguments Returned {A} a.
Arguments Raised {A} e.
Arguments Replaced {A} path argv.

(** Synchronous code: it runs on the event loop without interruption. *)
Definition M (A : Type) : Type := state -> outcome A * state.

Definition ret {A} (a : A) : M A := fun s => (Returned a, s).

Definition bind {A B} (m : M A) (f : A -> M B) : M B :=
  fun s =>
    match m s with
    | (Returned a, s') => f a s'
    | (Raised e, s') => (Raised e, s')
    | (Replaced p a, s') => (Replaced p a, s')
    end.

Definition raise {A} (e : exn) : M A := fun s => (Raised e, s).

(** [try: body  except Exception as e: handler(e)] *)
Definition try_except {A} (body : M A) (handler : exn -> M A) : M A :=
  fun s =>
    match body s with
    | (Raised e, s') => handler e s'
    | r => r
    end.

Definition gets {A} (f : state -> A) : M A := fun s => (Returned (f s), s).
Definition modify (f : state -> state) : M unit := fun s => (Returned tt, f s).

(** The value of a collaborator call, or the exception it raised. *)
Definition call {A} (r : fallible A) : M A :=
  match r with
  | inl m => raise (Exception m)
  | inr a => ret a
  end.

Declare Scope py_scope.
Delimit Scope py_scope with py.
Notation "x <- c1 ;; c2" := (bind c1 (fun x => c2))
  (at level 61, c1 at next level, right associativity) : py_scope.
Notation "c1 ;; c2" := (bind c1 (fun _ => c2))
  (at level 61, right associativity) : py_scope.
Local Open Scope py_scope.

(** [print(...)] *)
Definition print (s : string) : M unit := modify (add_log (Printed s)).

(** *** Timers *)

(** [threading.Timer(interval, restart_program)]: a new object, not yet
    started; the result is the reference to it. *)
Definition Timer (iv : Z) : M nat :=
  ts <- gets timers ;;
  modify (set_timers (ts ++ [{| interval := iv; started := None; cancelled := false |}])) ;;
  ret (List.length ts).

Fixpoint update_nth {A} (n : nat) (f : A -> A) (l : list A) : list A :=
  match l, n with
  | [], _ => []
  | a :: l', O => f a :: l'
  | a :: l', S n' => a :: update_nth n' f l'
  end.

(** [t.start()] *)
Definition timer_start (t : nat) : M unit :=
  now <- gets clock ;;
  ts <- gets timers ;;
  modify (set_timers (update_nth t
    (fun tm => {| interval := interval tm; started := Some now; cancelled := cancelled tm |}) ts)).

(** [t.cancel()] *)
Definition timer_cancel (t : nat) : M unit :=
  ts <- gets timers ;;
  modify (set_timers (update_nth t
    (fun tm => {| interval := interval tm; started := started tm; cancelled := true |}) ts)).

(** A timer is pending when it was started and not cancelled; it fires
    [interval] seconds after its start. *)
Definition pending (tm : timer) : bool :=
  match started tm with
  | Some _ => negb (cancelled tm)
  | None => false
  end.

Definition due (now : Z) (tm : timer) : bool :=
  match started tm with
  | Some t0 => negb (cancelled tm) && Z.leb (t0 + interval tm) now
  | None => false
  end.

Definition pending_timers (s : state) : nat :=
  List.length (filter pending (timers s)).

(** *** The model registry *)

(** A loader call; a completed construction is logged. *)
Definition construct (k : kind) (loader : fallible handle) : M handle :=
  h <- call loader ;;
  modify (add_log (Constructed k)) ;;
  ret h.

Section Server.

Variable env : Env.

Definition load_ocr_model : M unit :=
  cur <- gets rapid_ocr ;;
  match cur with
  | None => h <- construct OCR (RapidOCR env) ;; modify (set_slot OCR (Some h))
  | Some _ => ret tt
  end.

Definition load_clip_img_model : M unit :=
  cur <- gets clip_img_model ;;
  match cur with
  | None => h <- construct ClipImage (clip__load_img_model env) ;;
            modify (set_slot ClipImage (Some h))
  | Some _ => ret tt
  end.

Definition load_clip_txt_model : M unit :=
  cur <- gets clip_txt_model ;;
  match cur with
  | None => h <- construct ClipText (clip__load_txt_model env) ;;
            modify (set_slot ClipText (Some h))
  | Some _ => ret tt
  end.

Definition startup_event : M unit :=
  if env_auto_load_txt_modal env then load_clip_txt_model else ret tt.

(** [os.execl(python, python, *sys.argv)]: never returns. *)
Definition restart_program : M unit :=
  fun s =>
    let python := sys_executable env in
    (Replaced python (python :: sys_argv env), s).

(** *** The watchdog middleware, up to [await call_next(request)] *)
Definition check_activity_reset : M unit :=
  cur <- gets restart_timer ;;
  match cur with
  | Some t => timer_cancel t
  | None => ret tt
  end ;;
  t <- Timer (server_restart_time env) ;;
  modify (set_restart_timer (Some t)) ;;
  timer_start t.

(** *** Authentication *)
Definition verify_header (api_key : string) : M string :=
  if negb (String.eqb api_key (api_auth_key env))
  then raise (HTTPException 401 "Invalid API key")
  else ret api_key.

End Server.

(* ===================================================================== *)
(** ** Requests, responses and the route handlers *)
(* ===================================================================== *)

Inductive route :=
| PostCheck | PostRestart | PostRestartV2 | PostOcr | PostClipImg | PostClipTxt.

(** An inbound request: the protected route, the [api-key] header when one
    was sent, the uploaded file and the [text] field of the JSON body. *)
Record request := {
  path : route;
  api_key : option string;
  file : list Byte.byte;
  text : string
}.

(** The value under ['result']. *)
Inductive result_value :=
| Pass                          (* 'pass' *)
| Items (l : list string)       (* a list of strings, [] when empty *)
| OcrDict (r : ocr_result).     (* the dict of [trans_result] *)

(** A response dict: ['result'] and the optional keys. *)
Record response := {
  result : result_value;
  msg : option string;
  title : option string;
  help : option string
}.

Definition only_result (r : result_value) : response :=
  {| result := r; msg := None; title := None; help := None |}.

(** [{'result': [], 'msg': m}] *)
Definition soft_fail (m : string) : response :=
  {| result := Items []; msg := Some m; title := None; help := None |}.

(** An [async def]: synchronous segments separated by [await]s.  [Now m]
    is the last segment; [Then m k] runs [m], gives control back to the
    event loop and continues with [k] when resumed. *)
Inductive task (A : Type) : Type :=
| Now (m : M A)
| Then (m : M unit) (k : task A).

Arguments Now {A} m.
Arguments Then {A} m k.

(** Code run at the start of the first segment of a task. *)
Definition prepend {A B} (m : M B) (t : task A) : task A :=
  match t with
  | Now m' => Now (m ;; m')
  | Then m' k => Then (m ;; m') k
  end.

(** A task run without any other task in between. *)
Fixpoint run_task {A} (t : task A) : M A :=
  match t with
  | Now m => m
  | Then m k => m ;; run_task k
  end.

Section Handlers.

Variable env : Env.

(** [await file.read()] *)
Definition file_read (f : list Byte.byte) : M (list Byte.byte) :=
  modify (add_log FileRead) ;; ret f.

(** [cv2.imdecode(np.frombuffer(image_bytes, np.uint8), cv2.IMREAD_COLOR)] *)
Definition imdecode (image_bytes : list Byte.byte) : M (option image) :=
  modify (add_log Decoded) ;; call (cv2_imdecode env image_bytes).

(** [rapid_ocr(img)] on the global slot. *)
Definition invoke_rapid_ocr (img : image)
  : M (option (list detection) * list float) :=
  cur <- gets rapid_ocr ;;
  match cur with
  | Some h => modify (add_log (Invoked OCR)) ;; call (rapid_ocr_call env h img)
  | None => raise (Exception "'NoneType' object is not callable")
  end.

(** [clip.process_image(img, clip_img_model)]; the module function is
    entered whatever the slot holds. *)
Definition invoke_clip_image (img : option image) : M (list float) :=
  cur <- gets clip_img_model ;;
  modify (add_log (Invoked ClipImage)) ;;
  match cur with
  | Some h => call (clip__process_image env img h)
  | None => raise (Exception "'NoneType' object has no attribute 'infer'")
  end.

(** [clip.process_txt(text, clip_txt_model)] *)
Definition invoke_clip_txt (txt : string) : M (list float) :=
  cur <- gets clip_txt_model ;;
  modify (add_log (Invoked ClipText)) ;;
  match cur with
  | Some h => call (clip__process_txt env txt h)
  | None => raise (Exception "'NoneType' object has no attribute 'infer'")
  end.

(** [POST /check] *)
Definition check_req : task response :=
  Now (ret {| result := Pass;
              title := Some "mt-photos-ai服务";
              help := Some "https://mtmt.tech/docs/advanced/ocr_api";
              msg := None |}).

(** [POST /restart]: the call to [restart_program] is commented out. *)
Definition check_req_restart : task response :=
  Now (ret (only_result Pass)).

(** [POST /restart_v2] *)
Definition check_req_restart_v2 : task response :=
  Now (restart_program env ;; ret (only_result Pass)).

(** The [try] block of [process_image]. *)
Definition process_image_try (image_bytes : list Byte.byte) : M response :=
  img <- imdecode image_bytes ;;
  match img with
  | None =>
      (* [img.shape] on [None] *)
      raise (Exception "'NoneType' object has no attribute 'shape'")
  | Some img =>
      let '(height, width, _) := shape img in
      if Z.ltb 10000 width || Z.ltb 10000 height then
        ret (soft_fail "height or width out of range")
      else
        _result <- invoke_rapid_ocr img ;;
        let result := trans_result (fst _result) in
        ret (only_result (OcrDict result))
  end.

(** [except Exception as e: print(e); return {'result': [], 'msg': str(e)}] *)
Definition soft_fail_handler (e : exn) : M response :=
  print (str_exn e) ;; ret (soft_fail (str_exn e)).

(** [POST /ocr] *)
Definition process_image (f : list Byte.byte) : task response :=
  Then (load_ocr_model env)
    (Now (image_bytes <- file_read f ;;
          try_except (process_image_try image_bytes) soft_fail_handler)).

(** The [try] block of [clip_process_image]. *)
Definition clip_process_image_try (image_bytes : list Byte.byte) : M response :=
  img <- imdecode image_bytes ;;
  result <- invoke_clip_image img ;;
  ret (only_result (Items (format_embedding result))).

(** [POST /clip/img] *)
Definition clip_process_image (f : list Byte.byte) : task response :=
  Then (load_clip_img_model env)
    (Now (image_bytes <- file_read f ;;
          try_except (clip_process_image_try image_bytes) soft_fail_handler)).

(** [POST /clip/txt]: no [await] and no [try]. *)
Definition clip_process_txt (txt : string) : task response :=
  Now (load_clip_txt_model env ;;
       result <- invoke_clip_txt txt ;;
       ret (only_result (Items (format_embedding result)))).

(** The endpoint function of each route. *)
Definition endpoint (req : request) : task response :=
  match path req with
  | PostCheck => check_req
  | PostRestart => check_req_restart
  | PostRestartV2 => check_req_restart_v2
  | PostOcr => process_image (file req)
  | PostClipImg => clip_process_image (file req)
  | PostClipTxt => clip_process_txt (text req)
  end.

(** [api_key: str = Depends(verify_header)]: the dependency is resolved
    before the endpoint function is entered; a request without the
    header is refused by the framework with status 422. *)
Definition depends_verify_header (req : request) (t : task response)
  : task response :=
  match api_key req with
  | Some k => prepend (verify_header env k) t
  | None => Now (raise (HTTPException 422 "Field required"))
  end.

(** A protected route behind its dependency. *)
Definition route_handler (req : request) : task response :=
  depends_verify_header req (endpoint req).

(** The [http] middleware around it:
    reset the watchdog, then [await call_next(request)]. *)
Definition check_activity (req : request) : task response :=
  Then (check_activity_reset env) (route_handler req).

(** One request served from start to end. *)
Definition serve (req : request) : M response :=
  run_task (check_activity req).

End Handlers.

(* ===================================================================== *)
(** ** The process over time: restarts, the watchdog and the event loop *)
(* ===================================================================== *)

(** A fresh process image: the module level, then the startup hook. *)
Definition boot (env : Env) (now : Z) : state :=
  snd (startup_event env (initial_state now)).

(** The running process and the number of times it was replaced: by the
    watchdog timer ([fired]) and by [/restart_v2] ([forced]). *)
Record system := { proc : state; fired : nat; forced : nat }.

Definition start (env : Env) (now : Z) : system :=
  {| proc := boot env now; fired := 0; forced := 0 |}.

Definition total_restarts (sys : system) : nat := (fired sys + forced sys)%nat.

(** Time passes until [now] with no request.  A pending timer whose
    interval has run out calls [restart_program] from its thread. *)
Definition elapse (env : Env) (now : Z) (sys : system) : system :=
  let now := Z.max now (clock (proc sys)) in
  let s := set_clock now (proc sys) in
  if existsb (due now) (timers s) then
    match restart_program env s with
    | (Replaced _ _, _) =>
        {| proc := boot env now; fired := S (fired sys); forced := forced sys |}
    | (_, s') => {| proc := s'; fired := fired sys; forced := forced sys |}
    end
  else {| proc := s; fired := fired sys; forced := forced sys |}.

(** A request served in one go: the whole coroutine of [serve] runs on
    the current process with nothing in between, neither another request
    nor the passing of time.  How requests share the process, and what the
    timer does while a handler is busy, is the event loop below. *)
Definition arrive (env : Env) (req : request) (sys : system) : system :=
  match serve env req (proc sys) with
  | (Replaced _ _, s') =>
      {| proc := boot env (clock s'); fired := fired sys; forced := S (forced sys) |}
  | (_, s') => {| proc := s'; fired := fired sys; forced := forced sys |}
  end.

(** *** The event loop: many requests in flight *)

(** The process state and the coroutines that are suspended at an
    [await] or not yet started. *)
Record loop := { lstate : state; inflight : list (task response) }.

Inductive sched :=
| Accept (req : request)      (* a request arrives: its coroutine is created *)
| Resume (i : nat)            (* the loop runs the next segment of coroutine i *)
| Elapse (now : Z).           (* time passes; a due timer fires *)

Fixpoint remove_nth {A} (n : nat) (l : list A) : list A :=
  match l, n with
  | [], _ => []
  | _ :: l', O => l'
  | a :: l', S n' => a :: remove_nth n' l'
  end.

Definition boot_loop (env : Env) (now : Z) : loop :=
  {| lstate := boot env now; inflight := [] |}.

Definition resume (env : Env) (i : nat) (l : loop) : loop :=
  match nth_error (inflight l) i with
  | None => l
  | Some (Now m) =>
      match m (lstate l) with
      | (Replaced _ _, s') => boot_loop env (clock s')
      | (_, s') => {| lstate := s'; inflight := remove_nth i (inflight l) |}
      end
  | Some (Then m k) =>
      match m (lstate l) with
      | (Replaced _ _, s') => boot_loop env (clock s')
      | (Raised _, s') => {| lstate := s'; inflight := remove_nth i (inflight l) |}
      | (Returned _, s') =>
          {| lstate := s'; inflight := update_nth i (fun _ => k) (inflight l) |}
      end
  end.

Definition loop_step (env : Env) (l : loop) (ev : sched) : loop :=
  match ev with
  | Accept req =>
      {| lstate := lstate l; inflight := inflight l ++ [check_activity env req] |}
  | Resume i => resume env i l
  | Elapse now =>
      let now := Z.max now (clock (lstate l)) in
      let s := set_clock now (lstate l) in
      if existsb (due now) (timers s) then
        match restart_program env s with
        | (Replaced _ _, _) => boot_loop env now
        | (_, s') => {| lstate := s'; inflight := inflight l |}
        end
      else {| lstate := s; inflight := inflight l |}
  end.

Definition run_loop (env : Env) (evs : list sched) (l : loop) : loop :=
  fold_left (loop_step env) evs l.

Definition event_is_constructed (k : kind) (ev : event) : bool :=
  match ev with
  | Constructed k' => kind_eqb k k'
  | _ => false
  end.

Definition event_is_invoked (k : kind) (ev : event) : bool :=
  match ev with
  | Invoked k' => kind_eqb k k'
  | _ => false
  end.

(** How many times the model of kind [k] was constructed by this process. *)
Definition constructions (k : kind) (s : state) : nat :=
  List.length (filter (event_is_constructed k) (log s)).

(** How many times the engine of kind [k] was called by this process. *)
Definition invocations (k : kind) (s : state) : nat :=
  List.length (filter (event_is_invoked k) (log s)).

(** The external loader of each kind. *)
Definition loader (env : Env) (k : kind) : fallible handle :=
  match k with
  | OCR => RapidOCR env
  | ClipImage => clip__load_img_model env
  | ClipText => clip__load_txt_model env
  end.

(* ===================================================================== *)
(** ** A small concrete environment, for running the model on examples *)
(* ===================================================================== *)

Module Demo.

Definition byte_val (b : Byte.byte) : Z := Z.of_N (Byte.to_N b).

(** A toy codec: two bytes of height, two bytes of width, then pixels.
    An empty buffer raises, a truncated header decodes to [None]. *)
Definition decode (bs : list Byte.byte) : fallible (option image) :=
  match bs with
  | [] => inl "(-215:Assertion failed) !buf.empty() in function 'imdecode_'"
  | h1 :: h0 :: w1 :: w0 :: px =>
      inr (Some {| shape := (256 * byte_val h1 + byte_val h0,
                             256 * byte_val w1 + byte_val w0, 3);
                   pixels := px |})
  | _ => inr None
  end.

Definition a_box : quad :=
  {| corner0 := {| at0 := literal false 12 1; at1 := literal false 5 1 |};
     corner1 := {| at0 := literal false 112 1; at1 := literal false 5 1 |};
     corner2 := {| at0 := literal false 112 1; at1 := literal false 25 1 |};
     corner3 := {| at0 := literal false 12 1; at1 := literal false 25 1 |} |}.

Definition a_detection : detection :=
  {| res_box := a_box; res_text := "hello"; res_score := literal false 987 1000 |}.

Definition an_embedding : list float :=
  [literal false 1 4; literal true 3 8; literal false 1 10].

Definition env : Env :=
  {| api_auth_key := "mt_photos_ai_extra";
     server_restart_time := 300;
     env_auto_load_txt_modal := false;
     sys_executable := "/usr/bin/python3";
     sys_argv := ["server.py"];
     RapidOCR := inr (Handle 1);
     clip__load_img_model := inr (Handle 2);
     clip__load_txt_model := inr (Handle 3);
     cv2_imdecode := decode;
     rapid_ocr_call := fun _ _ => inr (Some [a_detection], []);
     clip__process_image := fun img _ =>
       match img with
       | Some _ => inr an_embedding
       | None => inl "'NoneType' object has no attribute 'shape'"
       end;
     clip__process_txt := fun txt _ =>
       match txt with
       | EmptyString => inl "Infer Request is busy"
       | _ => inr an_embedding
       end |}.

Import Byte.

(** A 16 x 10001 image: the width is over the bound. *)
Definition wide_image : list byte := [x00; x10; x27; x11; xff].

(** A 16 x 32 image. *)
Definition small_image : list byte := [x00; x10; x00; x20; xff].

Definition good_key : string := "mt_photos_ai_extra".

End Demo.

(* ===================================================================== *)
(** ** Vocabulary of the statements *)
(* ===================================================================== *)

(** The detections of a raw engine result; [None] has none. *)
Definition raw_detections (result : option (list detection)) : list detection :=
  match result with
  | None => []
  | Some l => l
  end.

(** [m] relates every state to the state it leaves, whatever the outcome. *)
Definition keeps (P : state -> state -> Prop) {A} (m : M A) : Prop :=
  forall s, P s (snd (m s)).

(** Every segment of a coroutine does. *)
Fixpoint task_keeps (P : state -> state -> Prop) {A} (t : task A) : Prop :=
  match t with
  | Now m => keeps P m
  | Then m k => keeps P m /\ task_keeps P k
  end.

(** The watchdog's part of the state is untouched. *)
Definition same_watchdog (s s' : state) : Prop :=
  clock s' = clock s /\ timers s' = timers s /\ restart_timer s' = restart_timer s.

(** The registry's part of the state and the log are untouched. *)
Definition same_models (s s' : state) : Prop :=
  log s' = log s /\ forall k, slot k s' = slot k s.

(** The registry invariant: an empty slot was never filled, no kind was
    constructed twice, and a filled slot holds what its loader returned. *)
Definition registry_ok (env : Env) (s : state) : Prop :=
  forall k,
    (slot k s = None -> constructions k s = 0%nat) /\
    (constructions k s <= 1)%nat /\
    (forall h, slot k s = Some h -> loader env k = inr h).

Definition registry_kept (env : Env) (s s' : state) : Prop :=
  registry_ok env s -> registry_ok env s'.

(** The handle the slot of kind [k] holds once the load function has run:
    the one already there, or the one the loader returns. *)
Definition handle_after_load (env : Env) (k : kind) (s : state) : fallible handle :=
  match slot k s with
  | Some h => inr h
  | None => loader env k
  end.

(** The watchdog invariant: a pending timer is the one [restart_timer]
    refers to, it runs for the configured window and was started at [lb]
    or later. *)
Definition watchdog_ok (env : Env) (lb : Z) (s : state) : Prop :=
  forall i tm,
    nth_error (timers s) i = Some tm -> pending tm = true ->
    restart_timer s = Some i /\
    interval tm = server_restart_time env /\
    exists t0, started tm = Some t0 /\ lb <= t0.

(** The timer a request arms at time [now]. *)
Definition armed_timer (env : Env) (now : Z) : timer :=
  {| interval := server_restart_time env; started := Some now; cancelled := false |}.

(** The timers once the referenced one, if any, is cancelled. *)
Definition cancel_current (s : state) : list timer :=
  match restart_timer s with
  | Some t =>
      update_nth t
        (fun tm => {| interval := interval tm; started := started tm; cancelled := true |})
        (timers s)
  | None => timers s
  end.

(** The three load functions are one function of the kind. *)
Definition load_model (env : Env) (k : kind) : M unit :=
  (cur <- gets (slot k) ;;
   match cur with
   | None => h <- construct k (loader env k) ;; modify (set_slot k (Some h))
   | Some _ => ret tt
   end)%py.

(** The state a successful load of kind [k] leaves. *)
Definition loaded_state (env : Env) (k : kind) (s : state) : state :=
  match slot k s, loader env k with
  | None, inr h => set_slot k (Some h) (add_log (Constructed k) s)
  | _, _ => s
  end.

(** The event-loop invariant: the registry invariant holds and every
    coroutine in flight keeps it. *)
Definition loop_ok (env : Env) (l : loop) : Prop :=
  registry_ok env (lstate l) /\
  Forall (task_keeps (registry_kept env)) (inflight l).

(** The state the middleware leaves before [await call_next(request)]:
    the referenced timer cancelled, a new one armed and referenced. *)
Definition reset_state (env : Env) (s : state) : state :=
  set_timers (cancel_current s ++ [armed_timer env (clock s)])
    (set_restart_timer (Some (List.length (timers s))) s).

(** What is left of a coroutine once its first [await] is passed. *)
Definition after_first_await {A} (t : task A) : task A :=
  match t with
  | Then _ k => k
  | Now _ => t
  end.

(** The bound check of [/ocr] on a decoded image. *)
Definition out_of_range (img : image) : bool :=
  let '(height, width, _) := shape img in
  Z.ltb 10000 width || Z.ltb 10000 height.

(** A request with the given route, key, upload and text. *)
Definition mk_request (r : route) (key : string) (f : list Byte.byte) (t : string)
  : request :=
  {| path := r; api_key := Some key; file := f; text := t |}.

(* ===================================================================== *)
(** ** The rest of the module: the info page and the configuration *)
(* ===================================================================== *)

(** The middleware around any route: reset the watchdog, then
    [await call_next(request)]. *)
Definition with_activity_check (env : Env) {A} (call_next : task A) : task A :=
  Then (check_activity_reset env) call_next.

Definition dq : string := String (ascii_of_nat 34) EmptyString.
Definition nl : string := String (ascii_of_nat 10) EmptyString.

(** The page of [GET /]. *)
Definition html_content : string :=
  "<!DOCTYPE html>" ++ nl ++
  "<html lang=" ++ dq ++ "en" ++ dq ++ ">" ++ nl ++
  "<head>" ++ nl ++
  "    <meta charset=" ++ dq ++ "UTF-8" ++ dq ++ ">" ++ nl ++
  "    <title>MT Photos AI Server</title>" ++ nl ++
  "    <style>p{text-align: center;}</style>" ++ nl ++
  "</head>" ++ nl ++
  "<body>" ++ nl ++
  "<p style=" ++ dq ++ "font-weight: 600;" ++ dq ++ ">MT Photos智能识别服务</p>" ++ nl ++
  "<p>服务状态： 运行中</p>" ++ nl ++
  "<p>使用方法： <a href=" ++ dq ++ "https://mtmt.tech/docs/advanced/ocr_api" ++ dq
    ++ ">https://mtmt.tech/docs/advanced/ocr_api</a></p>" ++ nl ++
  "</body>" ++ nl ++
  "</html>".

(** [GET /]: no dependency, no parameter. *)
Definition top_info : task string := Now (ret html_content).

(** [GET /] served from start to end. *)
Definition serve_top_info (env : Env) : M string :=
  run_task (with_activity_check env top_info).

(** [os.getenv(name, default)] on the environment of the process. *)
Definition getenv (environ : string -> option string) (name default : string)
  : string :=
  match environ name with
  | Some v => v
  | None => default
  end.

(** [api_auth_key = os.getenv("API_AUTH_KEY", "mt_photos_ai_extra")] *)
Definition read_api_auth_key (environ : string -> option string) : string :=
  getenv environ "API_AUTH_KEY" "mt_photos_ai_extra".

(** [env_auto_load_txt_modal = os.getenv("AUTO_LOAD_TXT_MODAL", "off") == "on"] *)
Definition read_env_auto_load_txt_modal (environ : string -> option string) : bool :=
  String.eqb (getenv environ "AUTO_LOAD_TXT_MODAL" "off") "on".

(* ===================================================================== *)
(** ** More vocabulary *)
(* ===================================================================== *)

(** The model kind a route works with. *)
Definition route_kind (r : route) : option kind :=
  match r with
  | PostOcr => Some OCR
  | PostClipImg => Some ClipImage
  | PostClipTxt => Some ClipText
  | PostCheck | PostRestart | PostRestartV2 => None
  end.

(** A filled slot keeps its handle. *)
Definition slots_kept (s s' : state) : Prop :=
  forall k h, slot k s = Some h -> slot k s' = Some h.

(** Every kind but [k0] is left alone: its slot, its constructions and its
    engine calls. *)
Definition others_untouched (k0 : option kind) (s s' : state) : Prop :=
  forall k, k0 <> Some k ->
    slot k s' = slot k s /\
    constructions k s' = constructions k s /\
    invocations k s' = invocations k s.

(** The code never replaces the process, and what it raises satisfies [Q]. *)
Definition only_raises (Q : exn -> Prop) {A} (m : M A) : Prop :=
  forall s,
    match fst (m s) with
    | Returned _ => True
    | Raised e => Q e
    | Replaced _ _ => False
    end.

Fixpoint task_only_raises (Q : exn -> Prop) {A} (t : task A) : Prop :=
  match t with
  | Now m => only_raises Q m
  | Then m k => only_raises Q m /\ task_only_raises Q k
  end.

(** An exception that is not an [HTTPException]. *)
Definition plain_exception (e : exn) : Prop :=
  match e with
  | Exception _ => True
  | HTTPException _ _ => False
  end.

(** The watchdog invariant with some lower bound, as a relation between
    the states before and after a step. *)
Definition watchdog_kept (env : Env) (s s' : state) : Prop :=
  (exists lb, watchdog_ok env lb s) -> exists lb, watchdog_ok env lb s'.

(** Is the decoded image within the bound of [/ocr]? *)
Definition within_bound (img : image) : bool :=
  let '(height, width, _) := shape img in
  Z.leb width 10000 && Z.leb height 10000.

(** A second concrete environment: the text model is loaded at startup
    and the OCR engine detects nothing. *)
Module Demo2.

Definition env : Env :=
  {| api_auth_key := api_auth_key Demo.env;
     server_restart_time := server_restart_time Demo.env;
     env_auto_load_txt_modal := true;
     sys_executable := sys_executable Demo.env;
     sys_argv := sys_argv Demo.env;
     RapidOCR := RapidOCR Demo.env;
     clip__load_img_model := clip__load_img_model Demo.env;
     clip__load_txt_model := clip__load_txt_model Demo.env;
     cv2_imdecode := cv2_imdecode Demo.env;
     rapid_ocr_call := fun _ _ => inr (None, []);
     clip__process_image := clip__process_image Demo.env;
     clip__process_txt := clip__process_txt Demo.env |}.

(** An environment in which no variable is set. *)
Definition no_variables : string -> option string := fun _ => None.

End Demo2.

(* ===================================================================== *)
(** ** The watchdog on the event loop *)
(* ===================================================================== *)

(** Serving a request takes time.  A segment has the event loop to itself:
    while a handler is in its engine call every other coroutine waits, the
    middleware of a request that has arrived in the meantime included.
    The [Timer] thread does not wait for the loop.  In a schedule,
    [Accept] is the arrival of a request, the first [Resume] of its
    coroutine is its middleware, and [Elapse] steps may stand anywhere;
    a timer that falls due while a segment is running is an [Elapse] in
    front of that segment, since what the segment had done is lost with
    the process. *)

(** The start time of the timer [restart_timer] refers to, while that
    timer is pending. *)
Definition armed_since (s : state) : option Z :=
  match restart_timer s with
  | Some i =>
      match nth_error (timers s) i with
      | Some tm => if pending tm then started tm else None
      | None => None
      end
  | None => None
  end.

(** The watchdog fires at this step: the test of [loop_step]. *)
Definition fires (l : loop) (ev : sched) : bool :=
  match ev with
  | Elapse now =>
      let now := Z.max now (clock (lstate l)) in
      existsb (due now) (timers (set_clock now (lstate l)))
  | _ => false
  end.

(** How many times the watchdog fires along a schedule; a restart by
    [/restart_v2] is not counted. *)
Fixpoint firings (env : Env) (evs : list sched) (l : loop) : nat :=
  match evs with
  | [] => 0
  | ev :: evs' =>
      ((if fires l ev then 1 else 0) + firings env evs' (loop_step env l ev))%nat
  end.

(** Every [Elapse] of the schedule stays before the time [d]. *)
Definition before (d : Z) (evs : list sched) : bool :=
  forallb (fun ev => match ev with Elapse now => Z.ltb now d | _ => true end) evs.

(** No coroutine is run: requests may arrive and time may pass. *)
Definition no_resume (evs : list sched) : bool :=
  forallb (fun ev => match ev with Resume _ => false | _ => true end) evs.

(** A coroutine in flight has not started, so that its next segment is
    the middleware, or it leaves the watchdog alone. *)
Definition watchdog_safe (env : Env) (t : task response) : Prop :=
  (exists req, t = check_activity env req) \/ task_keeps same_watchdog t.

(** The watchdog invariant on the event loop, with [lb] a time the
    process has reached and before which no pending timer was started. *)
Definition loop_watchdog_ok (env : Env) (lb : Z) (l : loop) : Prop :=
  watchdog_ok env lb (lstate l) /\ lb <= clock (lstate l) /\
  Forall (watchdog_safe env) (inflight l).

(** The request is an authenticated [/restart_v2]. *)
Definition forces_restart (env : Env) (req : request) : Prop :=
  path req = PostRestartV2 /\ api_key req = Some (api_auth_key env).

Module Blocked.

(** A request for [/ocr] and one for [/check] that arrives a second
    later. *)
Definition first : request := mk_request PostOcr Demo.good_key Demo.small_image "".
Definition second : request := mk_request PostCheck Demo.good_key [] "".

(** The first request is taken up at time 0 and reaches its engine call;
    the second arrives at time 1 and waits for the loop; at time 300
    the engine call has not returned. *)
Definition schedule : list sched :=
  [Accept first; Resume 0; Resume 0; Elapse 1; Accept second; Elapse 300].

(** An authenticated [/restart_v2], then a long silence. *)
Definition forced_restart : list sched :=
  [Accept (mk_request PostRestartV2 Demo.good_key [] ""); Resume 0; Resume 0;
   Elapse 1000000].

End Blocked.

(* ===================================================================== *)
(** ** Properties of the renderings *)
(* ===================================================================== *)

Section DigitStrings.

Lemma all_digits_app (a b : string) :
  all_digits (a ++ b) = all_digits a && all_digits b.
Proof.
  induction a as [|c a IH]; simpl; [reflexivity|].
  now rewrite IH, andb_assoc.
Qed.

Lemma string_length_app (a b : string) :
  String.length (a ++ b) = (String.length a + String.length b)%nat.
Proof. induction a as [|c a IH]; simpl; auto. Qed.

Lemma all_digits_zeros (n : nat) : all_digits (zeros n) = true.
Proof. induction n; simpl; auto. Qed.

Lemma length_zeros (n : nat) : String.length (zeros n) = n.
Proof. induction n; simpl; auto. Qed.

Lemma all_digits_uint (d : uint) :
  all_digits (NilEmpty.string_of_uint d) = true.
Proof. induction d; simpl; auto. Qed.

Lemma all_digits_of_Z (z : Z) : all_digits (digits_of_Z z) = true.
Proof.
  unfold digits_of_Z, NilZero.string_of_uint.
  destruct (N.to_uint (Z.to_N z)) eqn:E; try reflexivity;
    rewrite <- E; apply all_digits_uint.
Qed.

Lemma all_digits_take (n : nat) (s : string) :
  all_digits s = true -> all_digits (take n s) = true.
Proof.
  revert s; induction n as [|n IH]; intros [|c s]; simpl; auto.
  intros H; apply andb_true_iff in H as [Hc Hs].
  now rewrite Hc, IH.
Qed.

Lemma all_digits_drop (n : nat) (s : string) :
  all_digits s = true -> all_digits (drop n s) = true.
Proof.
  revert s; induction n as [|n IH]; intros [|c s]; simpl; auto.
  intros H; apply andb_true_iff in H as [_ Hs]; auto.
Qed.

Lemma length_drop (n : nat) (s : string) :
  String.length (drop n s) = (String.length s - n)%nat.
Proof.
  revert s; induction n as [|n IH]; intros [|c s]; simpl; auto.
Qed.

Lemma length_take (n : nat) (s : string) :
  (n <= String.length s)%nat -> String.length (take n s) = n.
Proof.
  revert s; induction n as [|n IH]; intros [|c s]; simpl; auto; try lia.
  intros H; rewrite IH; lia.
Qed.


Lemma is_digit_not_point (c : ascii) :
  is_digit c = true -> Ascii.eqb c "."%char = false.
Proof.
  intros H; destruct (Ascii.eqb_spec c "."%char) as [->|]; [discriminate H|reflexivity].
Qed.


(** The first point of [i ++ String "."%char f] is the one written, when [i] is
    made of digits. *)
Lemma split_point_digits (i f : string) :
  all_digits i = true -> split_point (i ++ String "."%char f) = Some (i, f).
Proof.
  induction i as [|c i IH]; simpl; intros H; [reflexivity|].
  apply andb_true_iff in H as [Hc Hi].
  now rewrite (is_digit_not_point c Hc), (IH Hi).
Qed.

Lemma decimal_places_unsigned (i f : string) :
  i <> EmptyString -> all_digits i = true -> all_digits f = true ->
  decimal_places (i ++ String "."%char f) = Some (String.length f).
Proof.
  intros Hne Hi Hf. unfold decimal_places.
  destruct i as [|c i]; [congruence|].
  assert (Hc : is_digit c = true) by (simpl in Hi; now apply andb_true_iff in Hi).
  assert (Hbody : match (String c i ++ String "."%char f) with
                  | String "-"%char rest => rest
                  | _ => String c i ++ String "."%char f
                  end = String c i ++ String "."%char f).
  { simpl. destruct c as [[] [] [] [] [] [] [] []]; try reflexivity; discriminate Hc. }
  rewrite Hbody, (split_point_digits _ _ Hi), Hi, Hf. reflexivity.
Qed.

Lemma decimal_places_signed (s : bool) (i f : string) :
  i <> EmptyString -> all_digits i = true -> all_digits f = true ->
  decimal_places (sign_string s ++ i ++ String "."%char f) = Some (String.length f).
Proof.
  intros Hne Hi Hf. destruct s; [|now apply decimal_places_unsigned].
  change (sign_string true ++ i ++ String "."%char f)
    with (String "-"%char (i ++ String "."%char f)).
  unfold decimal_places.
  rewrite (split_point_digits _ _ Hi).
  destruct i as [|c i]; [congruence|].
  now rewrite Hi, Hf.
Qed.

End DigitStrings.

(** [fixed_string (S n) r] is digits, a point and exactly [S n] digits. *)
Lemma fixed_string_shape (n : nat) (r : Z) :
  exists i f,
    fixed_string (S n) r = i ++ String "."%char f /\
    i <> EmptyString /\ all_digits i = true /\
    all_digits f = true /\ String.length f = S n.
Proof.
  unfold fixed_string.
  set (ds := digits_of_Z r).
  set (padded := zeros (S (S n) - String.length ds) ++ ds).
  assert (Hlen : (S (S n) <= String.length padded)%nat).
  { unfold padded. rewrite string_length_app, length_zeros. lia. }
  assert (Hdig : all_digits padded = true).
  { unfold padded, ds. now rewrite all_digits_app, all_digits_zeros, all_digits_of_Z. }
  exists (take (String.length padded - S n) padded),
         (drop (String.length padded - S n) padded).
  repeat split.
  - intros H.
    assert (L : String.length (take (String.length padded - S n) padded)
                = (String.length padded - S n)%nat) by (apply length_take; lia).
    rewrite H in L. simpl in L. lia.
  - now apply all_digits_take.
  - now apply all_digits_drop.
  - rewrite length_drop. lia.
Qed.

(** A finite float printed with ['.<n>f'], [n > 0], shows exactly [n]
    decimal places. *)
Lemma format_f_decimal_places (n : nat) (v : float) :
  is_finite v = true ->
  decimal_places (format_f (S n) v) = Some (S n).
Proof.
  intros Hfin.
  destruct v as [s|s| |s m e]; try discriminate Hfin; unfold format_f.
  - destruct (fixed_string_shape n 0) as (i & f & -> & Hne & Hi & Hf & Hl).
    rewrite <- Hl. now apply decimal_places_signed.
  - destruct (fixed_string_shape n (decimal_round (S n) m e))
      as (i & f & -> & Hne & Hi & Hf & Hl).
    rewrite <- Hl. now apply decimal_places_signed.
Qed.

(** A float that is not finite is printed without any decimal place. *)
Lemma format_f_not_finite (n : nat) (v : float) :
  is_finite v = false -> decimal_places (format_f n v) = None.
Proof.
  destruct v as [s|s| |s m e]; try discriminate; intros _; [destruct s|]; reflexivity.
Qed.

(** The renderings on some well-known values. *)
Example repr_tenth : repr (literal false 1 10) = "0.1".
Proof. vm_compute. reflexivity. Qed.

Example repr_difference :
  repr (sub (literal false 3 10) (literal false 1 10)) = "0.19999999999999998".
Proof. vm_compute. reflexivity. Qed.

Example repr_small : repr (literal true 1 100000) = "-1e-05".
Proof. vm_compute. reflexivity. Qed.

Example round_half_way : repr (round (literal false 2675 1000) 2) = "2.67".
Proof. vm_compute. reflexivity. Qed.

Example format_two : format_f 2 (literal false 2675 1000) = "2.67".
Proof. vm_compute. reflexivity. Qed.

Example format_sixteen :
  format_f 16 (literal false 1 10) = "0.1000000000000000".
Proof. vm_compute. reflexivity. Qed.

Example format_large :
  format_f 2 (literal false (10 ^ 23) 1) = "99999999999999991611392.00".
Proof. vm_compute. reflexivity. Qed.

(* ===================================================================== *)
(** ** The result normalizer *)
(* ===================================================================== *)

Lemma trans_loop (l : list detection) (acc : ocr_result) :
  fold_left trans_step l acc =
  {| texts := texts acc ++ map res_text l;
     scores := scores acc ++ map (fun d => format_f 2 (res_score d)) l;
     boxes := boxes acc ++ map (fun d => make_box (res_box d)) l |}.
Proof.
  revert acc; induction l as [|d l IH]; intros acc; simpl.
  - rewrite !app_nil_r. now destruct acc.
  - rewrite IH. simpl. now rewrite <- !app_assoc.
Qed.

(** The loop of [trans_result] is three maps over the detections. *)
Lemma trans_result_maps (result : option (list detection)) :
  trans_result result =
  {| texts := map res_text (raw_detections result);
     scores := map (fun d => format_f 2 (res_score d)) (raw_detections result);
     boxes := map (fun d => make_box (res_box d)) (raw_detections result) |}.
Proof.
  destruct result as [l|]; simpl; [|reflexivity].
  unfold trans_result. now rewrite trans_loop.
Qed.

(** C7: for every raw result, [None] included, the three sequences of
    [trans_result] have the length of the raw result and the i-th text,
    score and box are those of the i-th detection; [None] gives three
    empty sequences. *)
Theorem trans_result_aligned (result : option (list detection)) :
  let r := trans_result result in
  let raw := raw_detections result in
  List.length (texts r) = List.length raw /\
  List.length (scores r) = List.length (texts r) /\
  List.length (boxes r) = List.length (texts r) /\
  (forall i : nat,
      nth_error (texts r) i = option_map res_text (nth_error raw i) /\
      nth_error (scores r) i =
        option_map (fun d => format_f 2 (res_score d)) (nth_error raw i) /\
      nth_error (boxes r) i =
        option_map (fun d => make_box (res_box d)) (nth_error raw i)) /\
  trans_result None = {| texts := []; scores := []; boxes := [] |}.
Proof.
  cbv zeta. rewrite trans_result_maps. cbn [texts scores boxes].
  rewrite !length_map. repeat split; try reflexivity;
    apply nth_error_map.
Qed.

(** C3 (the behaviour of the code at the failing input): the score and
    embedding formats show exactly 2 and 16 places on every finite float,
    but [to_fixed], which prints [round(num, 2)] with [str], shows one
    place on 12.0 and 0.5, none on 1e16, and so do the box fields. *)
Theorem to_fixed_is_not_fixed :
  (forall v, decimal_places (format_f 2 v) = if is_finite v then Some 2%nat else None) /\
  (forall v, decimal_places (format_f 16 v) = if is_finite v then Some 16%nat else None) /\
  to_fixed (literal false 12 1) = "12.0" /\
  decimal_places (to_fixed (literal false 12 1)) = Some 1%nat /\
  to_fixed (literal false 1 2) = "0.5" /\
  to_fixed (literal false (10 ^ 16) 1) = "1e+16" /\
  decimal_places (to_fixed (literal false (10 ^ 16) 1)) = None /\
  to_fixed (literal false 123456 1000) = "123.46" /\
  trans_result (Some [Demo.a_detection]) =
    {| texts := ["hello"]; scores := ["0.99"];
       boxes := [{| x := "12.0"; y := "5.0"; width := "100.0"; height := "20.0" |}] |}.
Proof.
  split; [|split].
  - intros v. destruct (is_finite v) eqn:E.
    + now apply format_f_decimal_places.
    + now apply format_f_not_finite.
  - intros v. destruct (is_finite v) eqn:E.
    + now apply format_f_decimal_places.
    + now apply format_f_not_finite.
  - repeat split; vm_compute; reflexivity.
Qed.



(* ===================================================================== *)
(** ** Reasoning about synchronous code *)
(* ===================================================================== *)

Local Open Scope py_scope.

Section Keeps.

Context (P : state -> state -> Prop) `{!PreOrder P}.

Let P_refl : forall s, P s s := reflexivity.
Let P_trans : forall a b c, P a b -> P b c -> P a c := transitivity.

Lemma keeps_ret {A} (a : A) : keeps P (ret a).
Proof. intros s; apply P_refl. Qed.

Lemma keeps_raise {A} (e : exn) : keeps P (@raise A e).
Proof. intros s; apply P_refl. Qed.

Lemma keeps_gets {A} (f : state -> A) : keeps P (gets f).
Proof. intros s; apply P_refl. Qed.

Lemma keeps_call {A} (r : fallible A) : keeps P (call r).
Proof. destruct r; [apply keeps_raise | apply keeps_ret]. Qed.

Lemma keeps_bind {A B} (m : M A) (f : A -> M B) :
  keeps P m -> (forall a, keeps P (f a)) -> keeps P (bind m f).
Proof.
  intros Hm Hf s. unfold bind. specialize (Hm s).
  destruct (m s) as [[a|e|p a] s']; simpl in *; auto.
  eapply P_trans; [exact Hm | apply Hf].
Qed.

Lemma keeps_try {A} (body : M A) (handler : exn -> M A) :
  keeps P body -> (forall e, keeps P (handler e)) ->
  keeps P (try_except body handler).
Proof.
  intros Hb Hh s. unfold try_except. specialize (Hb s).
  destruct (body s) as [[a|e|p a] s']; simpl in *; auto.
  eapply P_trans; [exact Hb | apply Hh].
Qed.

Lemma keeps_modify (f : state -> state) :
  (forall s, P s (f s)) -> keeps P (modify f).
Proof. intros H s; apply H. Qed.

Lemma keeps_run_task {A} (t : task A) : task_keeps P t -> keeps P (run_task t).
Proof.
  induction t as [m|m k IH]; simpl; [auto|].
  intros [Hm Hk]. apply keeps_bind; auto.
Qed.

Lemma task_keeps_prepend {A B} (m : M B) (t : task A) :
  keeps P m -> task_keeps P t -> task_keeps P (prepend m t).
Proof.
  destruct t as [m'|m' k]; simpl.
  - intros Hm Ht. apply keeps_bind; auto.
  - intros Hm [Hm' Hk]. split; [apply keeps_bind; auto | exact Hk].
Qed.

End Keeps.

#[export] Instance same_watchdog_preorder : PreOrder same_watchdog.
Proof.
  split.
  - intros s. now repeat split.
  - intros a b c (?&?&?) (?&?&?). repeat split; congruence.
Qed.

#[export] Instance same_models_preorder : PreOrder same_models.
Proof.
  split.
  - intros s. now split.
  - intros a b c (?&Hab) (?&Hbc). split; [congruence|].
    intros k. now rewrite Hbc, Hab.
Qed.

#[export] Instance registry_kept_preorder (env : Env) : PreOrder (registry_kept env).
Proof. split; unfold registry_kept; [intros s | intros a b c]; auto. Qed.

(** A weaker relation is kept as well. *)
Lemma keeps_weaken (P Q : state -> state -> Prop) {A} (m : M A) :
  (forall s s', P s s' -> Q s s') -> keeps P m -> keeps Q m.
Proof. intros H Hm s. apply H, Hm. Qed.


(** Split a goal about composed code into goals about its parts. *)
Ltac keeps_step :=
  match goal with
  | |- keeps _ (bind _ _) => apply keeps_bind; [typeclasses eauto | | intros ]
  | |- keeps _ (try_except _ _) => apply keeps_try; [typeclasses eauto | | intros ]
  | |- keeps _ (ret _) => apply keeps_ret; typeclasses eauto
  | |- keeps _ (raise _) => apply keeps_raise; typeclasses eauto
  | |- keeps _ (gets _) => apply keeps_gets; typeclasses eauto
  | |- keeps _ (call _) => apply keeps_call; typeclasses eauto
  | |- keeps _ (modify _) => apply keeps_modify; intros
  | |- keeps _ (match ?x with _ => _ end) => destruct x
  | |- keeps _ (if ?x then _ else _) => destruct x
  end.

(* ===================================================================== *)
(** ** The model registry *)
(* ===================================================================== *)

Lemma kind_eqb_eq (a b : kind) : kind_eqb a b = true <-> a = b.
Proof. destruct a, b; simpl; split; congruence. Qed.

Lemma kind_eqb_refl (a : kind) : kind_eqb a a = true.
Proof. now destruct a. Qed.

Lemma slot_set_slot (k k' : kind) (h : option handle) (s : state) :
  slot k (set_slot k' h s) = if kind_eqb k k' then h else slot k s.
Proof. now destruct k, k'. Qed.

Lemma slot_add_log (k : kind) (ev : event) (s : state) :
  slot k (add_log ev s) = slot k s.
Proof. now destruct k. Qed.

Lemma constructions_set_slot (k k' : kind) (h : option handle) (s : state) :
  constructions k (set_slot k' h s) = constructions k s.
Proof. reflexivity. Qed.

Lemma constructions_add_log (k : kind) (ev : event) (s : state) :
  constructions k (add_log ev s) =
  (constructions k s + if event_is_constructed k ev then 1 else 0)%nat.
Proof.
  unfold constructions; simpl. rewrite filter_app, List.length_app. simpl.
  now destruct (event_is_constructed k ev).
Qed.

Lemma invocations_add_log (k : kind) (ev : event) (s : state) :
  invocations k (add_log ev s) =
  (invocations k s + if event_is_invoked k ev then 1 else 0)%nat.
Proof.
  unfold invocations; simpl. rewrite filter_app, List.length_app. simpl.
  now destruct (event_is_invoked k ev).
Qed.

Lemma load_ocr_model_eq (env : Env) : load_ocr_model env = load_model env OCR.
Proof. reflexivity. Qed.

Lemma load_clip_img_model_eq (env : Env) :
  load_clip_img_model env = load_model env ClipImage.
Proof. reflexivity. Qed.

Lemma load_clip_txt_model_eq (env : Env) :
  load_clip_txt_model env = load_model env ClipText.
Proof. reflexivity. Qed.

(** What a load function does: nothing on a filled slot; on an empty one
    it calls the loader, and fills the slot only when the loader returns. *)
Lemma load_model_run (env : Env) (k : kind) (s : state) :
  load_model env k s =
  match handle_after_load env k s with
  | inr _ => (Returned tt, loaded_state env k s)
  | inl m => (Raised (Exception m), s)
  end.
Proof.
  unfold load_model, handle_after_load, loaded_state, bind, gets, construct, call, bind.
  destruct (slot k s) as [h|]; [reflexivity|].
  destruct (loader env k) as [m|h]; reflexivity.
Qed.

Lemma slot_loaded_state (env : Env) (k : kind) (s : state) (h : handle) :
  handle_after_load env k s = inr h -> slot k (loaded_state env k s) = Some h.
Proof.
  unfold handle_after_load, loaded_state.
  destruct (slot k s) as [h'|] eqn:E.
  - intros [= ->]. exact E.
  - intros ->. now rewrite slot_set_slot, kind_eqb_refl.
Qed.

Lemma registry_ok_loaded (env : Env) (k : kind) (s : state) :
  registry_ok env s -> registry_ok env (loaded_state env k s).
Proof.
  intros H. unfold loaded_state.
  destruct (slot k s) as [h|] eqn:Hs; [exact H|].
  destruct (loader env k) as [m|h] eqn:Hl; [exact H|].
  intros k'. destruct (H k') as (H0 & H1 & H2).
  rewrite slot_set_slot, constructions_set_slot, constructions_add_log, slot_add_log.
  simpl event_is_constructed.
  destruct (kind_eqb k' k) eqn:E.
  - apply kind_eqb_eq in E; subst k'.
    rewrite (H0 Hs). repeat split; [discriminate | lia | now intros h' [= <-]].
  - rewrite Nat.add_0_r. repeat split; auto.
Qed.

Lemma load_model_keeps_registry (env : Env) (k : kind) :
  keeps (registry_kept env) (load_model env k).
Proof.
  intros s Hs. rewrite load_model_run.
  destruct (handle_after_load env k s); simpl; [exact Hs|].
  now apply registry_ok_loaded.
Qed.

Lemma load_model_keeps_watchdog (env : Env) (k : kind) :
  keeps same_watchdog (load_model env k).
Proof.
  intros s. rewrite load_model_run.
  destruct (handle_after_load env k s); simpl; [reflexivity|].
  unfold loaded_state. destruct (slot k s), (loader env k);
    try reflexivity. now repeat split.
Qed.



(* ===================================================================== *)
(** ** What each piece of the handlers leaves untouched *)
(* ===================================================================== *)

Lemma same_models_registry (env : Env) (s s' : state) :
  same_models s s' -> registry_kept env s s'.
Proof.
  intros [Hlog Hslot] H k. unfold constructions. rewrite Hlog, Hslot. apply H.
Qed.

Lemma registry_kept_add_log (env : Env) (ev : event) (s : state) :
  (forall k, event_is_constructed k ev = false) ->
  registry_kept env s (add_log ev s).
Proof.
  intros Hev H k. rewrite slot_add_log, constructions_add_log, Hev, Nat.add_0_r.
  apply H.
Qed.

Lemma same_watchdog_add_log (ev : event) (s : state) :
  same_watchdog s (add_log ev s).
Proof. now repeat split. Qed.

Section Frames.

Variable env : Env.

Ltac keeps_auto :=
  repeat first
    [ keeps_step
    | apply same_watchdog_add_log
    | apply registry_kept_add_log; intros []; reflexivity
    | solve [typeclasses eauto] ].

Lemma verify_header_keeps (P : state -> state -> Prop) `{!PreOrder P} (k : string) :
  keeps P (verify_header env k).
Proof. unfold verify_header. keeps_auto. Qed.

Lemma restart_program_keeps (P : state -> state -> Prop) `{!PreOrder P} :
  keeps P (restart_program env).
Proof. intros s. simpl. reflexivity. Qed.

Lemma check_activity_reset_keeps_models :
  keeps same_models (check_activity_reset env).
Proof.
  unfold check_activity_reset, timer_cancel, Timer, timer_start.
  keeps_auto; now split.
Qed.

Lemma endpoint_keeps_watchdog (req : request) :
  task_keeps same_watchdog (endpoint env req).
Proof.
  unfold endpoint.
  destruct (path req); simpl;
    repeat (match goal with |- _ /\ _ => split end);
    rewrite ?load_ocr_model_eq, ?load_clip_img_model_eq, ?load_clip_txt_model_eq;
    try apply load_model_keeps_watchdog;
    unfold file_read, process_image_try, clip_process_image_try, soft_fail_handler,
      imdecode, invoke_rapid_ocr, invoke_clip_image, invoke_clip_txt, print.
  all: keeps_auto.
  all: try apply load_model_keeps_watchdog; try apply restart_program_keeps;
    try typeclasses eauto.
Qed.

Lemma endpoint_keeps_registry (req : request) :
  task_keeps (registry_kept env) (endpoint env req).
Proof.
  unfold endpoint.
  destruct (path req); simpl;
    repeat (match goal with |- _ /\ _ => split end);
    rewrite ?load_ocr_model_eq, ?load_clip_img_model_eq, ?load_clip_txt_model_eq;
    try apply load_model_keeps_registry;
    unfold file_read, process_image_try, clip_process_image_try, soft_fail_handler,
      imdecode, invoke_rapid_ocr, invoke_clip_image, invoke_clip_txt, print.
  all: keeps_auto.
  all: try apply load_model_keeps_registry; try apply restart_program_keeps;
    try typeclasses eauto.
Qed.

Lemma route_handler_keeps_watchdog (req : request) :
  task_keeps same_watchdog (route_handler env req).
Proof.
  unfold route_handler, depends_verify_header.
  destruct (api_key req) as [k|]; simpl.
  - apply task_keeps_prepend; [typeclasses eauto | | apply endpoint_keeps_watchdog].
    apply verify_header_keeps; typeclasses eauto.
  - apply keeps_raise. typeclasses eauto.
Qed.

Lemma check_activity_keeps_registry (req : request) :
  task_keeps (registry_kept env) (check_activity env req).
Proof.
  simpl. split.
  - eapply keeps_weaken; [apply same_models_registry|].
    apply check_activity_reset_keeps_models.
  - unfold route_handler, depends_verify_header.
    destruct (api_key req) as [k|]; simpl.
    + apply task_keeps_prepend; [typeclasses eauto | | apply endpoint_keeps_registry].
      apply verify_header_keeps; typeclasses eauto.
    + apply keeps_raise. typeclasses eauto.
Qed.

End Frames.

(* ===================================================================== *)
(** ** The event loop: single construction *)
(* ===================================================================== *)

Lemma Forall_remove_nth {A} (P : A -> Prop) (i : nat) (l : list A) :
  Forall P l -> Forall P (remove_nth i l).
Proof.
  intros H; revert i; induction H as [|a l Ha Hl IH]; intros [|i]; simpl; auto.
Qed.

Lemma Forall_update_nth {A} (P : A -> Prop) (i : nat) (f : A -> A) (l : list A) :
  (forall a, P a -> P (f a)) -> Forall P l -> Forall P (update_nth i f l).
Proof.
  intros Hf H; revert i; induction H as [|a l Ha Hl IH]; intros [|i]; simpl; auto.
Qed.

Lemma Forall_nth_error {A} (P : A -> Prop) (i : nat) (l : list A) (a : A) :
  Forall P l -> nth_error l i = Some a -> P a.
Proof.
  intros H Hn. apply nth_error_In in Hn. rewrite Forall_forall in H. auto.
Qed.

Section EventLoop.

Variable env : Env.

Lemma registry_ok_initial (now : Z) : registry_ok env (initial_state now).
Proof. intros []; repeat split; simpl; auto; discriminate. Qed.

Lemma registry_ok_boot (now : Z) : registry_ok env (boot env now).
Proof.
  unfold boot, startup_event.
  destruct (env_auto_load_txt_modal env); simpl; [|apply registry_ok_initial].
  rewrite load_clip_txt_model_eq.
  apply load_model_keeps_registry, registry_ok_initial.
Qed.

Lemma registry_ok_set_clock (now : Z) (s : state) :
  registry_ok env s -> registry_ok env (set_clock now s).
Proof. intros H k. destruct k; [apply (H OCR) | apply (H ClipImage) | apply (H ClipText)]. Qed.

Lemma loop_ok_boot (now : Z) : loop_ok env (boot_loop env now).
Proof. split; simpl; [apply registry_ok_boot | constructor]. Qed.

Lemma loop_ok_resume (i : nat) (l : loop) :
  loop_ok env l -> loop_ok env (resume env i l).
Proof.
  intros [Hs Hts]. unfold resume.
  destruct (nth_error (inflight l) i) as [t|] eqn:Hi; [|now split].
  pose proof (Forall_nth_error _ _ _ _ Hts Hi) as Ht.
  destruct t as [m|m k]; simpl in Ht.
  - specialize (Ht (lstate l) Hs).
    destruct (m (lstate l)) as [[r|e|p a] s']; simpl in Ht;
      try apply loop_ok_boot; (split; simpl; [exact Ht | now apply Forall_remove_nth]).
  - destruct Ht as [Hm Hk]. specialize (Hm (lstate l) Hs).
    destruct (m (lstate l)) as [[r|e|p a] s']; simpl in Hm;
      try apply loop_ok_boot; split; simpl; try exact Hm.
    + apply Forall_update_nth; auto.
    + now apply Forall_remove_nth.
Qed.

Lemma loop_ok_step (l : loop) (ev : sched) :
  loop_ok env l -> loop_ok env (loop_step env l ev).
Proof.
  intros Hl. destruct ev as [req|i|now]; simpl.
  - destruct Hl as [Hs Hts]. split; simpl; [exact Hs|].
    apply Forall_app; split; [exact Hts|].
    constructor; [|constructor]. apply check_activity_keeps_registry.
  - now apply loop_ok_resume.
  - destruct (existsb _ _).
    + apply loop_ok_boot.
    + destruct Hl as [Hs Hts]. split; simpl; [|exact Hts].
      now apply registry_ok_set_clock.
Qed.

Lemma loop_ok_run (evs : list sched) (l : loop) :
  loop_ok env l -> loop_ok env (run_loop env evs l).
Proof.
  revert l; induction evs as [|ev evs IH]; intros l Hl; simpl; [exact Hl|].
  apply IH, loop_ok_step, Hl.
Qed.

End EventLoop.

(** C9: whatever requests arrive and however the event loop interleaves
    their segments, a process constructs the model of each kind at most
    once, and a slot is empty (and then nothing was constructed) or holds
    the handle its loader returned. *)
Theorem single_construction (env : Env) (now : Z) (evs : list sched) (k : kind) :
  let s := lstate (run_loop env evs (boot_loop env now)) in
  (constructions k s <= 1)%nat /\
  match slot k s with
  | Some h => loader env k = inr h
  | None => constructions k s = 0%nat
  end.
Proof.
  cbv zeta.
  destruct (loop_ok_run env evs _ (loop_ok_boot env now)) as [H _].
  destruct (H k) as (H0 & H1 & H2). split; [exact H1|].
  destruct (slot k _) as [h|]; auto.
Qed.

(* ===================================================================== *)
(** ** The idle-restart watchdog *)
(* ===================================================================== *)

Lemma length_update_nth {A} (n : nat) (f : A -> A) (l : list A) :
  List.length (update_nth n f l) = List.length l.
Proof. revert n; induction l as [|a l IH]; intros [|n]; simpl; auto. Qed.

Lemma update_nth_app_length {A} (f : A -> A) (l : list A) (a : A) :
  update_nth (List.length l) f (l ++ [a])%list = (l ++ [f a])%list.
Proof. induction l as [|b l IH]; simpl; [reflexivity | now rewrite IH]. Qed.

Lemma nth_error_update_nth {A} (n i : nat) (f : A -> A) (l : list A) :
  nth_error (update_nth n f l) i =
  if Nat.eqb i n then option_map f (nth_error l i) else nth_error l i.
Proof.
  revert n i; induction l as [|a l IH]; intros [|n] [|i]; simpl; auto.
  - now destruct (Nat.eqb _ _).
Qed.

Lemma filter_none {A} (p : A -> bool) (l : list A) :
  (forall a, In a l -> p a = false) -> filter p l = [].
Proof.
  induction l as [|a l IH]; intros H; simpl; [reflexivity|].
  rewrite (H a (or_introl eq_refl)). apply IH. intros b Hb. apply H. now right.
Qed.

(** If every element that satisfies [p] sits at index [n], at most one
    element satisfies [p]. *)
Lemma filter_at_most_one {A} (p : A -> bool) (l : list A) (n : nat) :
  (forall i a, nth_error l i = Some a -> p a = true -> i = n) ->
  (List.length (filter p l) <= 1)%nat.
Proof.
  revert n; induction l as [|a l IH]; intros n H; simpl; [lia|].
  destruct (p a) eqn:Ha.
  - assert (Hn : n = 0%nat) by (symmetry; apply (H 0%nat a); auto).
    assert (Hnone : filter p l = []).
    { apply filter_none. intros b Hb.
      destruct (p b) eqn:Hpb; [|reflexivity].
      apply In_nth_error in Hb as [j Hj].
      specialize (H (S j) b Hj Hpb). lia. }
    rewrite Hnone. simpl. lia.
  - apply (IH (Nat.pred n)). intros i b Hi Hb.
    specialize (H (S i) b Hi Hb). lia.
Qed.

Section Watchdog.

Variable env : Env.

Let window : Z := server_restart_time env.

(** The middleware always returns and leaves [reset_state]. *)
Lemma check_activity_reset_run (s : state) :
  check_activity_reset env s = (Returned tt, reset_state env s).
Proof.
  unfold check_activity_reset, reset_state, cancel_current, timer_cancel, Timer,
    timer_start, bind, gets, modify, ret.
  destruct s as [clk ts rt o ci ct lg]; simpl.
  destruct rt as [t|]; simpl; unfold set_timers, set_restart_timer; simpl;
    rewrite update_nth_app_length, ?length_update_nth; reflexivity.
Qed.


(** Under the invariant, cancelling the referenced timer leaves no timer
    pending. *)
Lemma cancel_current_none_pending (lb : Z) (s : state) :
  watchdog_ok env lb s ->
  forall tm, In tm (cancel_current s) -> pending tm = false.
Proof.
  intros H tm Hin. apply In_nth_error in Hin as [i Hi].
  destruct (pending tm) eqn:Hp; [exfalso|reflexivity].
  unfold cancel_current in Hi.
  destruct (restart_timer s) as [t|] eqn:Hrt.
  - rewrite nth_error_update_nth in Hi.
    destruct (Nat.eqb_spec i t) as [->|Hne].
    + destruct (nth_error (timers s) t) as [tm0|]; [|discriminate].
      injection Hi as <-. unfold pending in Hp; simpl in Hp.
      now destruct (started tm0).
    + destruct (H i tm Hi Hp) as [Hr _]. congruence.
  - destruct (H i tm Hi Hp) as [Hr _]. congruence.
Qed.

Lemma length_cancel_current (s : state) :
  List.length (cancel_current s) = List.length (timers s).
Proof.
  unfold cancel_current. destruct (restart_timer s); [apply length_update_nth|reflexivity].
Qed.

(** A request re-establishes the invariant, with the current time as the
    start of the only pending timer. *)
Lemma watchdog_ok_reset (lb : Z) (s : state) :
  watchdog_ok env lb s -> watchdog_ok env (clock s) (reset_state env s).
Proof.
  intros H i tm Hi Hp. unfold reset_state in Hi; simpl in Hi.
  destruct (Nat.lt_ge_cases i (List.length (cancel_current s))) as [Hlt|Hge].
  - rewrite nth_error_app1 in Hi by exact Hlt.
    apply nth_error_In in Hi.
    rewrite (cancel_current_none_pending lb s H tm Hi) in Hp. discriminate.
  - rewrite nth_error_app2 in Hi by exact Hge.
    destruct (i - List.length (cancel_current s))%nat as [|j] eqn:Hj;
      [|destruct j; discriminate].
    injection Hi as <-. simpl.
    rewrite length_cancel_current in *.
    repeat split; [f_equal; lia|].
    exists (clock s). split; [reflexivity|lia].
Qed.

Lemma pending_timers_reset (lb : Z) (s : state) :
  watchdog_ok env lb s -> pending_timers (reset_state env s) = 1%nat.
Proof.
  intros H. unfold pending_timers, reset_state; simpl.
  rewrite filter_app, (filter_none _ _ (cancel_current_none_pending lb s H)).
  reflexivity.
Qed.

Lemma watchdog_ok_at_most_one (lb : Z) (s : state) :
  watchdog_ok env lb s -> (pending_timers s <= 1)%nat.
Proof.
  intros H. unfold pending_timers.
  destruct (restart_timer s) as [n|] eqn:Hrt.
  - apply (filter_at_most_one _ _ n). intros i tm Hi Hp.
    destruct (H i tm Hi Hp) as [Hr _]. congruence.
  - rewrite filter_none; [simpl; lia|].
    intros tm Hin. destruct (pending tm) eqn:Hp; [|reflexivity].
    apply In_nth_error in Hin as [i Hi].
    destruct (H i tm Hi Hp) as [Hr _]. congruence.
Qed.

Lemma watchdog_ok_same (lb : Z) (s s' : state) :
  same_watchdog s s' -> watchdog_ok env lb s -> watchdog_ok env lb s'.
Proof.
  intros (_ & Ht & Hr) H i tm. rewrite Ht, Hr. apply H.
Qed.


Lemma watchdog_ok_set_clock (lb now : Z) (s : state) :
  watchdog_ok env lb s -> watchdog_ok env lb (set_clock now s).
Proof. intros H i tm. apply H. Qed.

Lemma watchdog_ok_no_timers (lb : Z) (s : state) :
  timers s = [] -> watchdog_ok env lb s.
Proof. intros Ht i tm Hi. rewrite Ht in Hi. now destruct i. Qed.

(** A fresh process has no timer at all. *)
Lemma boot_watchdog (now : Z) :
  clock (boot env now) = now /\ timers (boot env now) = [] /\
  restart_timer (boot env now) = None.
Proof.
  unfold boot, startup_event.
  destruct (env_auto_load_txt_modal env); simpl; [|now repeat split].
  rewrite load_clip_txt_model_eq.
  apply (load_model_keeps_watchdog env ClipText (initial_state now)).
Qed.

(** What serving a request does to the watchdog: the reset of the
    middleware and nothing else. *)
Lemma serve_watchdog (req : request) (s : state) :
  same_watchdog (reset_state env s) (snd (serve env req s)).
Proof.
  unfold serve. simpl run_task. unfold bind at 1.
  rewrite check_activity_reset_run.
  apply (keeps_run_task same_watchdog), route_handler_keeps_watchdog.
Qed.

(** Before the window has run out, no timer is due. *)
Lemma not_due_before (lb now : Z) (s : state) :
  watchdog_ok env lb s -> now < lb + window ->
  existsb (due now) (timers s) = false.
Proof.
  intros H Hnow. destruct (existsb (due now) (timers s)) eqn:E; [exfalso|reflexivity].
  apply existsb_exists in E as (tm & Hin & Hdue).
  apply In_nth_error in Hin as [i Hi].
  assert (Hp : pending tm = true).
  { unfold due in Hdue. unfold pending. destruct (started tm); [|discriminate].
    now apply andb_true_iff in Hdue. }
  destruct (H i tm Hi Hp) as (_ & Hiv & t0 & Hs & Ht).
  unfold due in Hdue. rewrite Hs, Hiv in Hdue.
  apply andb_true_iff in Hdue as [_ Hle]. apply Z.leb_le in Hle.
  unfold window in Hnow. lia.
Qed.

(** Once the window has run out, the armed timer is due. *)
Lemma due_after (t now : Z) (s s' : state) :
  same_watchdog (reset_state env s) s' -> clock s = t -> t + window <= now ->
  existsb (due now) (timers s') = true.
Proof.
  intros (_ & Ht & _) Hc Hnow. rewrite Ht. unfold reset_state; simpl.
  rewrite existsb_app. apply orb_true_iff. right. simpl.
  unfold due; simpl. rewrite Hc, orb_false_r. apply Z.leb_le. exact Hnow.
Qed.

End Watchdog.

Section Timeline.

Variable env : Env.

Let window : Z := server_restart_time env.


(** Time passing when no timer is due: only the clock moves. *)
Lemma elapse_quiet (now : Z) (sys : system) :
  existsb (due (Z.max now (clock (proc sys)))) (timers (proc sys)) = false ->
  elapse env now sys =
  {| proc := set_clock (Z.max now (clock (proc sys))) (proc sys);
     fired := fired sys; forced := forced sys |}.
Proof. intros H. unfold elapse. simpl timers. now rewrite H. Qed.

(** Time passing when a timer is due: the process is replaced. *)
Lemma elapse_fires (now : Z) (sys : system) :
  existsb (due (Z.max now (clock (proc sys)))) (timers (proc sys)) = true ->
  elapse env now sys =
  {| proc := boot env (Z.max now (clock (proc sys)));
     fired := S (fired sys); forced := forced sys |}.
Proof. intros H. unfold elapse. simpl timers. now rewrite H. Qed.

Lemma elapse_no_timers (now : Z) (sys : system) :
  timers (proc sys) = [] ->
  total_restarts (elapse env now sys) = total_restarts sys /\
  timers (proc (elapse env now sys)) = [].
Proof.
  intros H. rewrite elapse_quiet by now rewrite H. now split.
Qed.

Lemma clock_elapse (now : Z) (sys : system) :
  clock (proc (elapse env now sys)) = Z.max now (clock (proc sys)).
Proof.
  destruct (existsb (due (Z.max now (clock (proc sys)))) (timers (proc sys))) eqn:E.
  - rewrite elapse_fires by exact E. simpl. apply boot_watchdog.
  - now rewrite elapse_quiet by exact E.
Qed.

(** The invariant holds in every state the system reaches. *)
Lemma elapse_ok (lb now : Z) (sys : system) :
  watchdog_ok env lb (proc sys) -> watchdog_ok env lb (proc (elapse env now sys)).
Proof.
  intros H.
  destruct (existsb (due (Z.max now (clock (proc sys)))) (timers (proc sys))) eqn:E.
  - rewrite elapse_fires by exact E. simpl.
    apply watchdog_ok_no_timers, boot_watchdog.
  - rewrite elapse_quiet by exact E. simpl. now apply watchdog_ok_set_clock.
Qed.

Lemma arrive_ok (lb : Z) (req : request) (sys : system) :
  watchdog_ok env lb (proc sys) ->
  watchdog_ok env (clock (proc sys)) (proc (arrive env req sys)) /\
  clock (proc (arrive env req sys)) = clock (proc sys) /\
  fired (arrive env req sys) = fired sys.
Proof.
  intros H. unfold arrive.
  pose proof (serve_watchdog env req (proc sys)) as Hw.
  pose proof (watchdog_ok_reset env lb _ H) as Hr.
  destruct (serve env req (proc sys)) as [[r|e|p a] s']; simpl in *.
  1,2: split; [eapply watchdog_ok_same; eauto | split; [apply Hw | reflexivity]].
  split; [apply watchdog_ok_no_timers, boot_watchdog|].
  split; [|reflexivity].
  destruct (boot_watchdog env (clock s')) as [-> _]. apply Hw.
Qed.

Lemma start_ok (lb t0 : Z) : watchdog_ok env lb (proc (start env t0)).
Proof. apply watchdog_ok_no_timers, boot_watchdog. Qed.

End Timeline.

(* ===================================================================== *)
(** ** The watchdog on the event loop *)
(* ===================================================================== *)

Section LoopWatchdog.

Variable env : Env.

Let window : Z := server_restart_time env.

(** *** The referenced timer *)

Lemma armed_since_reset (s : state) :
  armed_since (reset_state env s) = Some (clock s).
Proof.
  unfold armed_since, reset_state; simpl.
  rewrite nth_error_app2 by (rewrite length_cancel_current; lia).
  rewrite length_cancel_current, Nat.sub_diag. reflexivity.
Qed.

Lemma armed_since_same (s s' : state) :
  same_watchdog s s' -> armed_since s' = armed_since s.
Proof. intros (_ & Ht & Hr). unfold armed_since. now rewrite Ht, Hr. Qed.

Lemma armed_since_boot (now : Z) : armed_since (boot env now) = None.
Proof.
  unfold armed_since. destruct (boot_watchdog env now) as (_ & _ & ->).
  reflexivity.
Qed.

(** Under the invariant the pending timers are the referenced one, or
    none. *)
Lemma pending_timers_armed (lb : Z) (s : state) :
  watchdog_ok env lb s ->
  pending_timers s = match armed_since s with Some _ => 1%nat | None => 0%nat end.
Proof.
  intros H.
  assert (Hnone : armed_since s = None -> pending_timers s = 0%nat).
  { intros Ha. unfold pending_timers. rewrite filter_none; [reflexivity|].
    intros tm Hin. destruct (pending tm) eqn:Hp; [exfalso|reflexivity].
    apply In_nth_error in Hin as [i Hi].
    destruct (H i tm Hi Hp) as (Hr & _ & t0 & Hs & _).
    unfold armed_since in Ha. rewrite Hr, Hi, Hp, Hs in Ha. discriminate. }
  destruct (armed_since s) as [t|] eqn:Ha; [|now apply Hnone].
  pose proof (watchdog_ok_at_most_one env lb s H) as Hle.
  assert (Hin : exists tm, In tm (timers s) /\ pending tm = true).
  { unfold armed_since in Ha.
    destruct (restart_timer s) as [i|]; [|discriminate].
    destruct (nth_error (timers s) i) as [tm|] eqn:Hi; [|discriminate].
    destruct (pending tm) eqn:Hp; [|discriminate].
    exists tm. split; [eapply nth_error_In; eauto | exact Hp]. }
  destruct Hin as (tm & Hin & Hp).
  assert (Hf : In tm (filter pending (timers s))) by (apply filter_In; auto).
  unfold pending_timers in *.
  destruct (filter pending (timers s)) as [|a [|b r]]; simpl in *;
    [contradiction | reflexivity | lia].
Qed.

(** Under the invariant a timer is due exactly when the window has run
    out since the referenced timer was started. *)
Lemma due_iff_armed (lb T : Z) (s : state) :
  watchdog_ok env lb s ->
  existsb (due T) (timers s) = true <->
  exists t, armed_since s = Some t /\ t + window <= T.
Proof.
  intros H. split.
  - intros E. apply existsb_exists in E as (tm & Hin & Hdue).
    apply In_nth_error in Hin as [i Hi].
    assert (Hp : pending tm = true).
    { unfold due in Hdue. unfold pending. destruct (started tm); [|discriminate].
      now apply andb_true_iff in Hdue. }
    destruct (H i tm Hi Hp) as (Hr & Hiv & t0 & Hs & _).
    exists t0. split.
    + unfold armed_since. now rewrite Hr, Hi, Hp.
    + unfold due in Hdue. rewrite Hs, Hiv in Hdue.
      apply andb_true_iff in Hdue as [_ Hle]. apply Z.leb_le in Hle. exact Hle.
  - intros (t & Ha & Hle). unfold armed_since in Ha.
    destruct (restart_timer s) as [i|]; [|discriminate].
    destruct (nth_error (timers s) i) as [tm|] eqn:Hi; [|discriminate].
    destruct (pending tm) eqn:Hp; [|discriminate].
    destruct (H i tm Hi Hp) as (_ & Hiv & _).
    apply existsb_exists. exists tm. split; [eapply nth_error_In; eauto|].
    unfold due. rewrite Ha. unfold pending in Hp. rewrite Ha in Hp.
    rewrite Hp, Hiv. simpl. apply Z.leb_le. exact Hle.
Qed.

(** *** The steps of the loop *)

Lemma watchdog_ok_earlier (lb lb' : Z) (s : state) :
  lb' <= lb -> watchdog_ok env lb s -> watchdog_ok env lb' s.
Proof.
  intros Hle H i tm Hi Hp. destruct (H i tm Hi Hp) as (Hr & Hiv & t0 & Hs & Ht).
  repeat split; auto. exists t0. split; [exact Hs | lia].
Qed.

Lemma loop_watchdog_ok_boot (lb now : Z) :
  lb <= now -> loop_watchdog_ok env lb (boot_loop env now).
Proof.
  intros Hle. split; [|split]; simpl.
  - apply watchdog_ok_no_timers, boot_watchdog.
  - destruct (boot_watchdog env now) as [-> _]. exact Hle.
  - constructor.
Qed.

Lemma watchdog_safe_route_handler (req : request) :
  watchdog_safe env (route_handler env req).
Proof. right. apply route_handler_keeps_watchdog. Qed.

(** The middleware of a request. *)
Lemma resume_middleware (i : nat) (req : request) (l : loop) :
  nth_error (inflight l) i = Some (check_activity env req) ->
  resume env i l =
  {| lstate := reset_state env (lstate l);
     inflight := update_nth i (fun _ => route_handler env req) (inflight l) |}.
Proof.
  intros Hi. unfold resume. rewrite Hi. unfold check_activity.
  now rewrite check_activity_reset_run.
Qed.

(** A segment is the middleware of a request, or it leaves the watchdog
    alone, or it replaces the process. *)
Lemma resume_cases (i : nat) (l : loop) :
  Forall (watchdog_safe env) (inflight l) ->
  (exists req, nth_error (inflight l) i = Some (check_activity env req)) \/
  (same_watchdog (lstate l) (lstate (resume env i l)) /\
   Forall (watchdog_safe env) (inflight (resume env i l))) \/
  resume env i l = boot_loop env (clock (lstate l)).
Proof.
  intros Hts.
  destruct (nth_error (inflight l) i) as [t|] eqn:Hi.
  - destruct (Forall_nth_error _ _ _ _ Hts Hi) as [[req ->]|Hk].
    + left. now exists req.
    + right. unfold resume. rewrite Hi.
      destruct t as [m|m k]; simpl in Hk.
      * specialize (Hk (lstate l)).
        destruct (m (lstate l)) as [[r|e|p a] s']; simpl in Hk.
        1,2: left; split; simpl; [exact Hk | now apply Forall_remove_nth].
        right. destruct Hk as (-> & _). reflexivity.
      * destruct Hk as [Hm Hk]. specialize (Hm (lstate l)).
        destruct (m (lstate l)) as [[r|e|p a] s']; simpl in Hm.
        -- left; split; simpl; [exact Hm|].
           apply Forall_update_nth; [|exact Hts]. intros _ _. now right.
        -- left; split; simpl; [exact Hm | now apply Forall_remove_nth].
        -- right. destruct Hm as (-> & _). reflexivity.
  - right. left. unfold resume. rewrite Hi. split; [|exact Hts].
    repeat split.
Qed.

Lemma loop_watchdog_ok_resume (lb : Z) (i : nat) (l : loop) :
  loop_watchdog_ok env lb l ->
  loop_watchdog_ok env lb (resume env i l) /\
  clock (lstate (resume env i l)) = clock (lstate l).
Proof.
  intros (Hok & Hlb & Hts).
  destruct (resume_cases i l Hts) as [[req Hi]|[[Hw Hts']| ->]].
  - rewrite (resume_middleware i req l Hi). simpl.
    split; [|reflexivity]. split; [|split]; simpl.
    + apply (watchdog_ok_earlier (clock (lstate l))); [exact Hlb|].
      now apply (watchdog_ok_reset env lb).
    + exact Hlb.
    + apply Forall_update_nth; [|exact Hts].
      intros _ _. apply watchdog_safe_route_handler.
  - split; [|apply Hw]. split; [|split].
    + eapply watchdog_ok_same; eauto.
    + destruct Hw as (-> & _). exact Hlb.
    + exact Hts'.
  - split; [now apply loop_watchdog_ok_boot|].
    simpl. apply boot_watchdog.
Qed.

(** Time passing: the process is replaced when a timer is due, and only
    the clock moves otherwise. *)
Lemma elapse_step (now : Z) (l : loop) :
  loop_step env l (Elapse now) =
  if fires l (Elapse now)
  then boot_loop env (Z.max now (clock (lstate l)))
  else {| lstate := set_clock (Z.max now (clock (lstate l))) (lstate l);
          inflight := inflight l |}.
Proof. simpl. now destruct (existsb _ _). Qed.

Lemma loop_watchdog_ok_step (lb : Z) (ev : sched) (l : loop) :
  loop_watchdog_ok env lb l -> loop_watchdog_ok env lb (loop_step env l ev).
Proof.
  intros Hl. destruct ev as [req|i|now].
  - destruct Hl as (Hok & Hlb & Hts). split; [|split]; simpl; auto.
    apply Forall_app; split; [exact Hts|].
    constructor; [|constructor]. left. now exists req.
  - now apply loop_watchdog_ok_resume.
  - destruct Hl as (Hok & Hlb & Hts). rewrite elapse_step.
    destruct (fires l (Elapse now)).
    + apply loop_watchdog_ok_boot. lia.
    + split; [|split]; simpl; [now apply watchdog_ok_set_clock | lia | exact Hts].
Qed.

Lemma loop_watchdog_ok_run (lb : Z) (evs : list sched) (l : loop) :
  loop_watchdog_ok env lb l -> loop_watchdog_ok env lb (run_loop env evs l).
Proof.
  revert l; induction evs as [|ev evs IH]; intros l Hl; simpl; [exact Hl|].
  apply IH, loop_watchdog_ok_step, Hl.
Qed.

(** *** Schedules *)

(** Before the window has run out since [lb], nothing fires. *)
Lemma no_firing_before (lb : Z) (mid : list sched) (l : loop) :
  loop_watchdog_ok env lb l -> clock (lstate l) < lb + window ->
  before (lb + window) mid = true ->
  firings env mid l = 0%nat.
Proof.
  revert l; induction mid as [|ev mid IH]; intros l Hl Hclk Hb; [reflexivity|].
  simpl in Hb. apply andb_true_iff in Hb as [Hev Hb].
  pose proof (loop_watchdog_ok_step lb ev l Hl) as Hl'.
  assert (Hq : fires l ev = false /\
               clock (lstate (loop_step env l ev)) < lb + window).
  { destruct ev as [req|i|now].
    - split; [reflexivity | exact Hclk].
    - split; [reflexivity|]. simpl.
      destruct (loop_watchdog_ok_resume lb i l Hl) as [_ ->]. exact Hclk.
    - apply Z.ltb_lt in Hev.
      assert (Hf : fires l (Elapse now) = false).
      { simpl. apply (not_due_before env lb); [apply Hl|]. fold window. lia. }
      split; [exact Hf|]. rewrite elapse_step, Hf. simpl. lia. }
  destruct Hq as [Hf Hclk']. simpl. rewrite Hf. simpl.
  now apply IH.
Qed.

(** A process without a timer does not fire as long as no coroutine
    runs. *)
Lemma no_firing_unarmed (later : list sched) (l : loop) :
  timers (lstate l) = [] -> no_resume later = true ->
  firings env later l = 0%nat.
Proof.
  revert l; induction later as [|ev later IH]; intros l Ht Hn; [reflexivity|].
  simpl in Hn. apply andb_true_iff in Hn as [Hev Hn].
  destruct ev as [req|i|now]; [|discriminate|].
  - simpl. now apply IH.
  - assert (Hf : fires l (Elapse now) = false) by (simpl; now rewrite Ht).
    change (((if fires l (Elapse now) then 1 else 0) +
             firings env later (loop_step env l (Elapse now)))%nat = 0%nat).
    rewrite elapse_step, Hf. simpl. now apply IH.
Qed.

Lemma reachable_watchdog_ok (t0 : Z) (evs : list sched) :
  loop_watchdog_ok env t0 (run_loop env evs (boot_loop env t0)).
Proof. apply loop_watchdog_ok_run, loop_watchdog_ok_boot. lia. Qed.

End LoopWatchdog.

(** C5, as the code has it, on the event loop: whatever has arrived,
    whatever the loop has run and however much time has passed since the
    process started,
    - the pending timers are the one [restart_timer] refers to, or none;
    - when the loop runs the middleware of a request, the referenced
      timer is cancelled and a new one is started for the window, so that
      one timer is pending, and the watchdog does not fire before the
      window has run out from that moment, whatever happens meanwhile;
    - every other step leaves the referenced timer as it is, unless it
      replaces the process;
    - the watchdog fires exactly when the window has run out since the
      referenced timer was started, whether a handler is busy or not; the
      new process has no timer, and no second firing follows while no
      request is taken up. *)
Theorem watchdog_single_timer (env : Env) (t0 : Z) (evs : list sched) :
  0 < server_restart_time env ->
  let window := server_restart_time env in
  let l := run_loop env evs (boot_loop env t0) in
  let s := lstate l in
  pending_timers s = match armed_since s with Some _ => 1%nat | None => 0%nat end /\
  (forall i req,
      nth_error (inflight l) i = Some (check_activity env req) ->
      let l1 := resume env i l in
      inflight l1 = update_nth i (fun _ => route_handler env req) (inflight l) /\
      timers (lstate l1) = (cancel_current s ++ [armed_timer env (clock s)])%list /\
      pending_timers (lstate l1) = 1%nat /\
      armed_since (lstate l1) = Some (clock s) /\
      forall mid, before (clock s + window) mid = true -> firings env mid l1 = 0%nat) /\
  (forall ev,
      armed_since (lstate (loop_step env l ev)) = armed_since s \/
      (exists i req,
          ev = Resume i /\ nth_error (inflight l) i = Some (check_activity env req)) \/
      (exists T, loop_step env l ev = boot_loop env T)) /\
  (forall now,
      fires l (Elapse now) = true <->
      exists t, armed_since s = Some t /\ t + window <= Z.max now (clock s)) /\
  (forall now later,
      fires l (Elapse now) = true -> no_resume later = true ->
      loop_step env l (Elapse now) = boot_loop env (Z.max now (clock s)) /\
      pending_timers (boot env (Z.max now (clock s))) = 0%nat /\
      firings env (Elapse now :: later) l = 1%nat).
Proof.
  intros Hw window l s.
  pose proof (reachable_watchdog_ok env t0 evs) as Hl. fold l in Hl.
  destruct Hl as (Hok & Hlb & Hts). fold s in Hok, Hlb.
  split; [|split; [|split; [|split]]].
  - apply (pending_timers_armed env t0), Hok.
  - intros i req Hi l1. unfold l1. rewrite (resume_middleware env i req l Hi).
    simpl lstate; simpl inflight. fold s.
    split; [reflexivity|]. split; [reflexivity|].
    split; [apply (pending_timers_reset env t0 s Hok)|].
    split; [apply armed_since_reset|].
    intros mid Hmid. apply (no_firing_before env (clock s)).
    + split; [|split]; simpl.
      * apply (watchdog_ok_reset env t0), Hok.
      * lia.
      * apply Forall_update_nth; [|exact Hts].
        intros _ _. apply watchdog_safe_route_handler.
    + simpl. lia.
    + exact Hmid.
  - intros [req|i|now].
    + left. reflexivity.
    + simpl loop_step.
      destruct (resume_cases env i l Hts) as [[req Hi]|[[Hsame _]|Hb]].
      * right. left. now exists i, req.
      * left. now apply armed_since_same.
      * right. right. eauto.
    + rewrite elapse_step. destruct (fires l (Elapse now)).
      * right. right. eauto.
      * left. reflexivity.
  - intros now. simpl. fold s. apply (due_iff_armed env t0), Hok.
  - intros now later Hf Hn.
    assert (Hstep : loop_step env l (Elapse now) = boot_loop env (Z.max now (clock s))).
    { rewrite elapse_step, Hf. reflexivity. }
    split; [exact Hstep|].
    split.
    + unfold pending_timers. destruct (boot_watchdog env (Z.max now (clock s)))
        as (_ & -> & _). reflexivity.
    + change (((if fires l (Elapse now) then 1 else 0) +
               firings env later (loop_step env l (Elapse now)))%nat = 1%nat).
      rewrite Hf, Hstep, no_firing_unarmed; [reflexivity | | exact Hn].
      simpl. apply boot_watchdog.
Qed.

Lemma watchdog_single_timer_witness :
  0 < server_restart_time Demo.env /\
  firings Demo.env
    [Resume 0; Elapse 4300; Accept Blocked.second; Resume 1; Resume 0;
     Elapse 4499; Resume 0]
    (resume Demo.env 0
       (run_loop Demo.env
          [Elapse 4010; Accept Blocked.second; Resume 0; Resume 0;
           Elapse 4200; Accept Blocked.first]
          (boot_loop Demo.env 0))) = 0%nat /\
  firings Demo.env [Elapse 4500; Accept Blocked.second; Elapse 9000]
    (run_loop Demo.env
       [Elapse 4010; Accept Blocked.second; Resume 0; Resume 0;
        Elapse 4200; Accept Blocked.first; Resume 0]
       (boot_loop Demo.env 0)) = 1%nat.
Proof.
  split; [reflexivity|]. split.
  - refine (proj2 (proj2 (proj2 (proj2 (proj1 (proj2
      (watchdog_single_timer Demo.env 0
         [Elapse 4010; Accept Blocked.second; Resume 0; Resume 0;
          Elapse 4200; Accept Blocked.first] _))
      0%nat Blocked.first _)))) _ _); reflexivity.
  - refine (proj2 (proj2 (proj2 (proj2 (proj2 (proj2
      (watchdog_single_timer Demo.env 0
         [Elapse 4010; Accept Blocked.second; Resume 0; Resume 0;
          Elapse 4200; Accept Blocked.first; Resume 0] _))))
      4500 [Accept Blocked.second; Elapse 9000] _ _))); reflexivity.
Defined.

(** C5, the claim as stated fails in three ways.  A process that has not
    yet taken up a request has no pending timer, and no restart follows
    however long it stays idle.  Requests that arrive a second apart do
    end in a restart when the handler of the first is still in its engine
    call a window after its middleware ran: the second request waits for
    the loop and its middleware never runs.  And after an authenticated
    [/restart_v2] the new process has no timer, so the silence that
    follows ends in no restart by the watchdog at all. *)
Lemma watchdog_counterexample :
  (pending_timers (lstate (boot_loop Demo.env 0)) = 0%nat /\
   firings Demo.env [Elapse 1000000] (boot_loop Demo.env 0) = 0%nat) /\
  (firings Demo.env Blocked.schedule (boot_loop Demo.env 0) = 1%nat /\
   run_loop Demo.env Blocked.schedule (boot_loop Demo.env 0)
     = boot_loop Demo.env 300) /\
  (firings Demo.env Blocked.forced_restart (boot_loop Demo.env 0) = 0%nat /\
   pending_timers (lstate (run_loop Demo.env Blocked.forced_restart (boot_loop Demo.env 0)))
     = 0%nat).
Proof. repeat split. Qed.

(* ===================================================================== *)
(** ** Requests through the middleware and the dependency *)
(* ===================================================================== *)

Section Requests.

Variable env : Env.

Lemma serve_unfold (req : request) (s : state) :
  serve env req s = run_task (route_handler env req) (reset_state env s).
Proof.
  unfold serve. simpl run_task. unfold bind at 1.
  now rewrite check_activity_reset_run.
Qed.

Lemma run_task_prepend {A B} (m : M B) (t : task A) (s : state) :
  run_task (prepend m t) s = bind m (fun _ => run_task t) s.
Proof.
  destruct t as [m'|m' k]; simpl; [reflexivity|].
  unfold bind. destruct (m s) as [[b|e|p a] s']; reflexivity.
Qed.

Lemma verify_header_run (key : string) (s : state) :
  verify_header env key s =
  if String.eqb key (api_auth_key env) then (Returned key, s)
  else (Raised (HTTPException 401 "Invalid API key"), s).
Proof. unfold verify_header. now destruct (String.eqb key (api_auth_key env)). Qed.

(** A request with a key: the endpoint runs after the reset when the key
    is the secret; otherwise the request ends with status 401. *)
Lemma serve_with_key (req : request) (key : string) (s : state) :
  api_key req = Some key ->
  serve env req s =
  if String.eqb key (api_auth_key env)
  then run_task (endpoint env req) (reset_state env s)
  else (Raised (HTTPException 401 "Invalid API key"), reset_state env s).
Proof.
  intros Hk. rewrite serve_unfold. unfold route_handler, depends_verify_header.
  rewrite Hk, run_task_prepend. unfold bind. rewrite verify_header_run.
  now destruct (String.eqb key (api_auth_key env)).
Qed.

Lemma serve_authenticated (req : request) (s : state) :
  api_key req = Some (api_auth_key env) ->
  serve env req s = run_task (endpoint env req) (reset_state env s).
Proof.
  intros Hk. rewrite (serve_with_key req _ s Hk). now rewrite String.eqb_refl.
Qed.

Lemma same_models_reset (s : state) : same_models s (reset_state env s).
Proof. split; [reflexivity | now intros []]. Qed.

Lemma handle_after_load_reset (k : kind) (s : state) :
  handle_after_load env k (reset_state env s) = handle_after_load env k s.
Proof. now destruct k. Qed.

(** A coroutine that starts with a load: when the loader raises, so does
    the coroutine, in the same state; otherwise the rest runs from the
    loaded state. *)
Lemma run_after_load {A} (k : kind) (rest : task A) (s : state) :
  run_task (Then (load_model env k) rest) s =
  match handle_after_load env k s with
  | inr _ => run_task rest (loaded_state env k s)
  | inl m => (Raised (Exception m), s)
  end.
Proof.
  simpl. unfold bind at 1. rewrite load_model_run.
  now destruct (handle_after_load env k s).
Qed.

End Requests.

(* ===================================================================== *)
(** ** The inference handlers, case by case *)
(* ===================================================================== *)

Section Inference.

Variable env : Env.


(** [/ocr] after the load, on a state whose slot holds [hd]. *)
Lemma process_image_rest_run (f : list Byte.byte) (hd : handle) (s : state) :
  rapid_ocr s = Some hd ->
  let s2 := add_log Decoded (add_log FileRead s) in
  run_task (after_first_await (process_image env f)) s =
  match cv2_imdecode env f with
  | inl m => (Returned (soft_fail m), add_log (Printed m) s2)
  | inr None =>
      let m := "'NoneType' object has no attribute 'shape'" in
      (Returned (soft_fail m), add_log (Printed m) s2)
  | inr (Some img) =>
      if out_of_range img
      then (Returned (soft_fail "height or width out of range"), s2)
      else
        match rapid_ocr_call env hd img with
        | inl m =>
            (Returned (soft_fail m),
             add_log (Printed m) (add_log (Invoked OCR) s2))
        | inr res =>
            (Returned (only_result (OcrDict (trans_result (fst res)))),
             add_log (Invoked OCR) s2)
        end
  end.
Proof.
  intros Hslot s2. simpl.
  unfold bind, file_read, try_except, process_image_try, imdecode, bind, modify, ret.
  simpl. fold s2. unfold call.
  destruct (cv2_imdecode env f) as [m|[img|]]; simpl; try reflexivity.
  unfold out_of_range. destruct (shape img) as [[h w] c].
  destruct (Z.ltb 10000 w || Z.ltb 10000 h); [reflexivity|].
  unfold invoke_rapid_ocr, bind, gets, modify, call.
  replace (rapid_ocr s2) with (Some hd) by (symmetry; exact Hslot).
  destruct (rapid_ocr_call env hd img) as [m|res]; reflexivity.
Qed.

(** [/clip/img] after the load, on a state whose slot holds [hd]: there
    is no bound check, the engine is entered with whatever was decoded. *)
Lemma clip_process_image_rest_run (f : list Byte.byte) (hd : handle) (s : state) :
  clip_img_model s = Some hd ->
  let s2 := add_log Decoded (add_log FileRead s) in
  run_task (after_first_await (clip_process_image env f)) s =
  match cv2_imdecode env f with
  | inl m => (Returned (soft_fail m), add_log (Printed m) s2)
  | inr img =>
      match clip__process_image env img hd with
      | inl m =>
          (Returned (soft_fail m),
           add_log (Printed m) (add_log (Invoked ClipImage) s2))
      | inr vec =>
          (Returned (only_result (Items (format_embedding vec))),
           add_log (Invoked ClipImage) s2)
      end
  end.
Proof.
  intros Hslot s2. simpl.
  unfold bind, file_read, try_except, clip_process_image_try, imdecode, bind, modify, ret.
  simpl. fold s2. unfold call.
  destruct (cv2_imdecode env f) as [m|img]; simpl; try reflexivity.
  unfold invoke_clip_image, bind, gets, modify, call.
  replace (clip_img_model s2) with (Some hd) by (symmetry; exact Hslot).
  destruct (clip__process_image env img hd) as [m|vec]; reflexivity.
Qed.

(** [/clip/txt]: one segment, and nothing catches what the engine
    raises. *)
Lemma clip_process_txt_run (txt : string) (hd : handle) (s : state) :
  handle_after_load env ClipText s = inr hd ->
  let s2 := add_log (Invoked ClipText) (loaded_state env ClipText s) in
  run_task (clip_process_txt env txt) s =
  match clip__process_txt env txt hd with
  | inl m => (Raised (Exception m), s2)
  | inr vec => (Returned (only_result (Items (format_embedding vec))), s2)
  end.
Proof.
  intros Hh s2. simpl. rewrite load_clip_txt_model_eq.
  unfold bind at 1. rewrite load_model_run, Hh.
  pose proof (slot_loaded_state env ClipText s hd Hh) as Hslot. simpl in Hslot.
  unfold invoke_clip_txt, bind, gets, modify, call. rewrite Hslot. fold s2.
  destruct (clip__process_txt env txt hd) as [m|vec]; reflexivity.
Qed.

(** An authenticated [/ocr] request as a whole. *)
Lemma serve_ocr (req : request) (s : state) :
  path req = PostOcr -> api_key req = Some (api_auth_key env) ->
  serve env req s =
  match handle_after_load env OCR s with
  | inr _ =>
      run_task (after_first_await (process_image env (file req)))
        (loaded_state env OCR (reset_state env s))
  | inl m => (Raised (Exception m), reset_state env s)
  end.
Proof.
  intros Hp Hk. rewrite (serve_authenticated env req s Hk).
  unfold endpoint. rewrite Hp. unfold process_image.
  rewrite load_ocr_model_eq, run_after_load, handle_after_load_reset.
  reflexivity.
Qed.

(** An authenticated [/clip/img] request as a whole. *)
Lemma serve_clip_img (req : request) (s : state) :
  path req = PostClipImg -> api_key req = Some (api_auth_key env) ->
  serve env req s =
  match handle_after_load env ClipImage s with
  | inr _ =>
      run_task (after_first_await (clip_process_image env (file req)))
        (loaded_state env ClipImage (reset_state env s))
  | inl m => (Raised (Exception m), reset_state env s)
  end.
Proof.
  intros Hp Hk. rewrite (serve_authenticated env req s Hk).
  unfold endpoint. rewrite Hp. unfold clip_process_image.
  rewrite load_clip_img_model_eq, run_after_load, handle_after_load_reset.
  reflexivity.
Qed.

Lemma serve_clip_txt (req : request) (s : state) :
  path req = PostClipTxt -> api_key req = Some (api_auth_key env) ->
  serve env req s =
  run_task (clip_process_txt env (text req)) (reset_state env s).
Proof.
  intros Hp Hk. rewrite (serve_authenticated env req s Hk).
  unfold endpoint. now rewrite Hp.
Qed.

Lemma invocations_loaded_state (k k' : kind) (s : state) :
  invocations k (loaded_state env k' s) = invocations k s.
Proof.
  unfold loaded_state. destruct (slot k' s), (loader env k'); try reflexivity.
  unfold invocations; simpl. rewrite filter_app; simpl.
  now rewrite List.length_app.
Qed.

Lemma invocations_reset_state (k : kind) (s : state) :
  invocations k (reset_state env s) = invocations k s.
Proof. reflexivity. Qed.

Lemma loaded_slot_reset (k : kind) (s : state) (hd : handle) :
  handle_after_load env k s = inr hd ->
  slot k (loaded_state env k (reset_state env s)) = Some hd.
Proof.
  intros H. apply slot_loaded_state. now rewrite handle_after_load_reset.
Qed.

End Inference.

(* ===================================================================== *)
(** ** The claims about the handlers *)
(* ===================================================================== *)

Lemma out_of_range_true (img : image) (h w c : Z) :
  shape img = (h, w, c) -> 10000 < w \/ 10000 < h -> out_of_range img = true.
Proof.
  intros Hs Hb. unfold out_of_range. rewrite Hs. apply orb_true_iff.
  destruct Hb; [left | right]; now apply Z.ltb_lt.
Qed.

(** C1, as the code has it: an authenticated [/ocr] request whose image
    decodes with a width or a height over 10000 is answered with the empty
    result and the bounds message and the OCR engine is not called;
    [/clip/img] has no such check and calls its engine on that image. *)
Theorem bound_check_on_ocr_only
    (env : Env) (f : list Byte.byte) (t : string) (s : state)
    (img : image) (h w c : Z) (hd_ocr hd_clip : handle) :
  cv2_imdecode env f = inr (Some img) ->
  shape img = (h, w, c) ->
  10000 < w \/ 10000 < h ->
  handle_after_load env OCR s = inr hd_ocr ->
  handle_after_load env ClipImage s = inr hd_clip ->
  let ocr_req := mk_request PostOcr (api_auth_key env) f t in
  let clip_req := mk_request PostClipImg (api_auth_key env) f t in
  fst (serve env ocr_req s) = Returned (soft_fail "height or width out of range") /\
  invocations OCR (snd (serve env ocr_req s)) = invocations OCR s /\
  invocations ClipImage (snd (serve env clip_req s)) = S (invocations ClipImage s) /\
  fst (serve env clip_req s) =
    match clip__process_image env (Some img) hd_clip with
    | inl m => Returned (soft_fail m)
    | inr vec => Returned (only_result (Items (format_embedding vec)))
    end.
Proof.
  intros Hdec Hshape Hbound Ho Hc ocr_req clip_req.
  pose proof (out_of_range_true img h w c Hshape Hbound) as Hout.
  rewrite (serve_ocr env ocr_req s eq_refl eq_refl), Ho.
  rewrite (serve_clip_img env clip_req s eq_refl eq_refl), Hc.
  rewrite (process_image_rest_run env _ hd_ocr) by (apply (loaded_slot_reset env OCR), Ho).
  rewrite (clip_process_image_rest_run env _ hd_clip)
    by (apply (loaded_slot_reset env ClipImage), Hc).
  simpl file. rewrite Hdec, Hout. simpl fst; simpl snd.
  split; [reflexivity|]. split.
  - rewrite !invocations_add_log. simpl.
    rewrite invocations_loaded_state, invocations_reset_state. lia.
  - destruct (clip__process_image env (Some img) hd_clip) as [m|vec]; simpl;
      rewrite !invocations_add_log; simpl;
      rewrite invocations_loaded_state, invocations_reset_state;
      (split; [lia | reflexivity]).
Qed.

Lemma bound_check_on_ocr_only_witness :
  fst (serve Demo.env (mk_request PostOcr Demo.good_key Demo.wide_image "")
         (boot Demo.env 0))
  = Returned (soft_fail "height or width out of range") /\
  invocations OCR
    (snd (serve Demo.env (mk_request PostOcr Demo.good_key Demo.wide_image "")
            (boot Demo.env 0))) = 0%nat.
Proof.
  pose proof (bound_check_on_ocr_only Demo.env Demo.wide_image "" (boot Demo.env 0)
    {| shape := (16, 10001, 3); pixels := [Byte.xff] |} 16 10001 3 (Handle 1) (Handle 2)
    eq_refl eq_refl (or_introl eq_refl) eq_refl eq_refl) as H.
  exact (conj (proj1 H) (proj1 (proj2 H))).
Defined.

(** C1, the claim as stated fails on [/clip/img]: a 16 x 10001 image is
    decoded, the engine is called on it and its embedding is returned. *)
Lemma clip_img_has_no_bound_check :
  Demo.decode Demo.wide_image
    = inr (Some {| shape := (16, 10001, 3); pixels := [Byte.xff] |}) /\
  serve Demo.env (mk_request PostClipImg Demo.good_key Demo.wide_image "")
    (boot Demo.env 0)
  = (Returned (only_result
       (Items ["0.2500000000000000"; "-0.3750000000000000"; "0.1000000000000000"])),
     {| clock := 0;
        timers := [{| interval := 300; started := Some 0; cancelled := false |}];
        restart_timer := Some 0%nat;
        rapid_ocr := None; clip_img_model := Some (Handle 2); clip_txt_model := None;
        log := [Constructed ClipImage; FileRead; Decoded; Invoked ClipImage] |}).
Proof. split; vm_compute; reflexivity. Qed.

(** C2, as the code has it: on [/ocr] and [/clip/img] whatever the decode
    step or the engine raises is caught and answered with the empty result
    and the message, so these handlers always return; [/clip/txt] has no
    [try] and what its engine raises leaves the handler. *)
Theorem failures_caught_on_image_routes
    (env : Env) (f : list Byte.byte) (t : string) (s : state)
    (hd_ocr hd_clip : handle) :
  handle_after_load env OCR s = inr hd_ocr ->
  handle_after_load env ClipImage s = inr hd_clip ->
  let ocr_req := mk_request PostOcr (api_auth_key env) f t in
  let clip_req := mk_request PostClipImg (api_auth_key env) f t in
  let txt_req := mk_request PostClipTxt (api_auth_key env) f t in
  (exists r, fst (serve env ocr_req s) = Returned r /\
     (forall m, cv2_imdecode env f = inl m -> r = soft_fail m) /\
     (cv2_imdecode env f = inr None ->
        r = soft_fail "'NoneType' object has no attribute 'shape'") /\
     (forall img m, cv2_imdecode env f = inr (Some img) -> out_of_range img = false ->
        rapid_ocr_call env hd_ocr img = inl m -> r = soft_fail m)) /\
  (exists r, fst (serve env clip_req s) = Returned r /\
     (forall m, cv2_imdecode env f = inl m -> r = soft_fail m) /\
     (forall img m, cv2_imdecode env f = inr img ->
        clip__process_image env img hd_clip = inl m -> r = soft_fail m)) /\
  (forall hd_txt m, handle_after_load env ClipText s = inr hd_txt ->
     clip__process_txt env t hd_txt = inl m ->
     fst (serve env txt_req s) = Raised (Exception m)).
Proof.
  intros Ho Hc ocr_req clip_req txt_req.
  rewrite (serve_ocr env ocr_req s eq_refl eq_refl), Ho.
  rewrite (serve_clip_img env clip_req s eq_refl eq_refl), Hc.
  rewrite (process_image_rest_run env _ hd_ocr) by (apply (loaded_slot_reset env OCR), Ho).
  rewrite (clip_process_image_rest_run env _ hd_clip)
    by (apply (loaded_slot_reset env ClipImage), Hc).
  simpl file. split; [|split].
  - destruct (cv2_imdecode env f) as [m|[img|]]; simpl.
    + eexists; split; [reflexivity|]. repeat split; try discriminate.
      now intros m' [= ->].
    + destruct (out_of_range img) eqn:Hout; simpl.
      * eexists; split; [reflexivity|]. repeat split; try discriminate.
        intros img' m' [= <-]. congruence.
      * destruct (rapid_ocr_call env hd_ocr img) as [m|res] eqn:Hcall; simpl;
          (eexists; split; [reflexivity|]); repeat split; try discriminate;
          intros img' m' [= <-] _ Hcall'; congruence.
    + eexists; split; [reflexivity|]. repeat split; discriminate.
  - destruct (cv2_imdecode env f) as [m|img]; simpl.
    + eexists; split; [reflexivity|]. split; [now intros m' [= ->] | discriminate].
    + destruct (clip__process_image env img hd_clip) as [m|vec] eqn:Hcall; simpl;
        (eexists; split; [reflexivity|]); (split; [discriminate|]);
        intros img' m' [= <-] Hcall'; congruence.
  - intros hd_txt m Ht Hcall.
    rewrite (serve_clip_txt env txt_req s eq_refl eq_refl). simpl text.
    rewrite (clip_process_txt_run env t hd_txt)
      by (now rewrite handle_after_load_reset).
    now rewrite Hcall.
Qed.

Lemma failures_caught_on_image_routes_witness :
  exists r,
    fst (serve Demo.env (mk_request PostOcr Demo.good_key [] "") (boot Demo.env 0))
      = Returned r /\
    r = soft_fail "(-215:Assertion failed) !buf.empty() in function 'imdecode_'".
Proof.
  destruct (proj1 (failures_caught_on_image_routes Demo.env [] "" (boot Demo.env 0)
    (Handle 1) (Handle 2) eq_refl eq_refl)) as (r & Hr & Hdec & _).
  exists r. split; [exact Hr | exact (Hdec _ eq_refl)].
Defined.

(** C2, the claim as stated fails on [/clip/txt]: the exception of the
    engine leaves the handler. *)
Lemma clip_txt_failure_is_not_caught :
  Demo.env.(clip__process_txt) "" (Handle 3) = inl "Infer Request is busy" /\
  fst (serve Demo.env (mk_request PostClipTxt Demo.good_key [] "") (boot Demo.env 0))
  = Raised (Exception "Infer Request is busy").
Proof. split; reflexivity. Qed.

(** C4: a request that carries a key gets past the dependency exactly
    when the key is string-equal to the configured secret; otherwise it
    ends with status 401 and neither a slot nor the log has changed: no
    model was loaded and no engine was called. *)
Theorem auth_exact_match
    (env : Env) (r : route) (key : string) (f : list Byte.byte) (t : string)
    (s : state) :
  let req := mk_request r key f t in
  (verify_header env key s = (Returned key, s) <-> key = api_auth_key env) /\
  serve env req s =
    (if String.eqb key (api_auth_key env)
     then run_task (endpoint env req) (reset_state env s)
     else (Raised (HTTPException 401 "Invalid API key"), reset_state env s)) /\
  (String.eqb key (api_auth_key env) = true <-> key = api_auth_key env) /\
  same_models s (reset_state env s).
Proof.
  cbv zeta. split; [|split; [|split]].
  - rewrite verify_header_run.
    destruct (String.eqb_spec key (api_auth_key env)) as [->|Hne]; split; auto.
    + discriminate.
    + intros ->. congruence.
  - now apply serve_with_key.
  - apply String.eqb_eq.
  - apply same_models_reset.
Qed.

(** C6: with the right key, [/restart] returns [{'result': 'pass'}] and
    the process goes on; [/restart_v2] replaces the process image by the
    interpreter run on the original arguments, and a fresh process starts. *)
Theorem restart_routes
    (env : Env) (f : list Byte.byte) (t : string) (sys : system) :
  let restart := mk_request PostRestart (api_auth_key env) f t in
  let restart_v2 := mk_request PostRestartV2 (api_auth_key env) f t in
  serve env restart (proc sys)
    = (Returned (only_result Pass), reset_state env (proc sys)) /\
  arrive env restart sys
    = {| proc := reset_state env (proc sys); fired := fired sys; forced := forced sys |} /\
  serve env restart_v2 (proc sys)
    = (Replaced (sys_executable env) (sys_executable env :: sys_argv env),
       reset_state env (proc sys)) /\
  arrive env restart_v2 sys
    = {| proc := boot env (clock (proc sys)); fired := fired sys;
         forced := S (forced sys) |}.
Proof.
  cbv zeta.
  assert (H1 : serve env (mk_request PostRestart (api_auth_key env) f t) (proc sys)
               = (Returned (only_result Pass), reset_state env (proc sys))).
  { now rewrite (serve_authenticated env
      (mk_request PostRestart (api_auth_key env) f t) _ eq_refl). }
  assert (H2 : serve env (mk_request PostRestartV2 (api_auth_key env) f t) (proc sys)
               = (Replaced (sys_executable env) (sys_executable env :: sys_argv env),
                  reset_state env (proc sys))).
  { now rewrite (serve_authenticated env
      (mk_request PostRestartV2 (api_auth_key env) f t) _ eq_refl). }
  unfold arrive. rewrite H1, H2. repeat split.
Qed.



Section LoadFirst.

Variable env : Env.

Lemma log_loaded_state (k : kind) (s : state) :
  log (loaded_state env k (reset_state env s)) =
  (log s ++ match handle_after_load env k s, slot k s with
            | inr _, None => [Constructed k]
            | _, _ => []
            end)%list.
Proof.
  unfold loaded_state, handle_after_load.
  replace (slot k (reset_state env s)) with (slot k s) by now destruct k.
  destruct (slot k s); [now rewrite app_nil_r|].
  destruct (loader env k); [now rewrite app_nil_r | reflexivity].
Qed.

Ltac log_tail :=
  simpl; rewrite <- ?app_assoc; simpl;
  split; [assumption | eexists _, _; split; reflexivity].

(** After the load, [/ocr] reads and decodes, keeps the slot and
    returns. *)
Lemma process_image_rest_log (f : list Byte.byte) (hd : handle) (s1 : state) :
  rapid_ocr s1 = Some hd ->
  let res := run_task (after_first_await (process_image env f)) s1 in
  rapid_ocr (snd res) = Some hd /\
  exists r tail,
    fst res = Returned r /\
    log (snd res) = (log s1 ++ FileRead :: Decoded :: tail)%list.
Proof.
  intros Hslot res. unfold res.
  rewrite (process_image_rest_run env f hd s1 Hslot).
  destruct (cv2_imdecode env f) as [m|[img|]]; [log_tail| |log_tail].
  destruct (out_of_range img); [log_tail|].
  destruct (rapid_ocr_call env hd img); log_tail.
Qed.

Lemma clip_process_image_rest_log (f : list Byte.byte) (hd : handle) (s1 : state) :
  clip_img_model s1 = Some hd ->
  let res := run_task (after_first_await (clip_process_image env f)) s1 in
  clip_img_model (snd res) = Some hd /\
  exists r tail,
    fst res = Returned r /\
    log (snd res) = (log s1 ++ FileRead :: Decoded :: tail)%list.
Proof.
  intros Hslot res. unfold res.
  rewrite (clip_process_image_rest_run env f hd s1 Hslot).
  destruct (cv2_imdecode env f) as [m|img]; [log_tail|].
  destruct (clip__process_image env img hd); log_tail.
Qed.

End LoadFirst.

(** C10: an authenticated [/ocr] or [/clip/img] request first runs the
    load function.  When the loader raises, the request ends there and
    nothing is read.  Otherwise the upload is read and decoded from a state
    in which the slot is filled (a construction, if one was needed, comes
    before the read in the log), the handler returns, and the slot is still
    filled at the end, whatever the decoder, the bound check or the engine
    did. *)
Theorem model_loaded_before_read
    (env : Env) (f : list Byte.byte) (t : string) (s : state) :
  let ocr_req := mk_request PostOcr (api_auth_key env) f t in
  let clip_req := mk_request PostClipImg (api_auth_key env) f t in
  match handle_after_load env OCR s with
  | inl m => serve env ocr_req s = (Raised (Exception m), reset_state env s)
  | inr hd =>
      let s1 := loaded_state env OCR (reset_state env s) in
      rapid_ocr s1 = Some hd /\
      log s1 = (log s ++ match rapid_ocr s with None => [Constructed OCR] | _ => [] end)%list /\
      serve env ocr_req s = run_task (after_first_await (process_image env f)) s1 /\
      rapid_ocr (snd (serve env ocr_req s)) = Some hd /\
      exists r tail,
        fst (serve env ocr_req s) = Returned r /\
        log (snd (serve env ocr_req s)) = (log s1 ++ FileRead :: Decoded :: tail)%list
  end /\
  match handle_after_load env ClipImage s with
  | inl m => serve env clip_req s = (Raised (Exception m), reset_state env s)
  | inr hd =>
      let s1 := loaded_state env ClipImage (reset_state env s) in
      clip_img_model s1 = Some hd /\
      log s1 = (log s ++ match clip_img_model s with
                         | None => [Constructed ClipImage]
                         | _ => []
                         end)%list /\
      serve env clip_req s = run_task (after_first_await (clip_process_image env f)) s1 /\
      clip_img_model (snd (serve env clip_req s)) = Some hd /\
      exists r tail,
        fst (serve env clip_req s) = Returned r /\
        log (snd (serve env clip_req s)) = (log s1 ++ FileRead :: Decoded :: tail)%list
  end.
Proof.
  intros ocr_req clip_req. split.
  - rewrite (serve_ocr env ocr_req s eq_refl eq_refl).
    pose proof (log_loaded_state env OCR s) as Hlog.
    destruct (handle_after_load env OCR s) as [m|hd] eqn:Hh; [reflexivity|].
    pose proof (loaded_slot_reset env OCR s hd Hh) as Hslot. simpl in Hslot.
    cbv zeta. split; [exact Hslot|]. split; [exact Hlog|]. split; [reflexivity|].
    apply process_image_rest_log, Hslot.
  - rewrite (serve_clip_img env clip_req s eq_refl eq_refl).
    pose proof (log_loaded_state env ClipImage s) as Hlog.
    destruct (handle_after_load env ClipImage s) as [m|hd] eqn:Hh; [reflexivity|].
    pose proof (loaded_slot_reset env ClipImage s hd Hh) as Hslot. simpl in Hslot.
    cbv zeta. split; [exact Hslot|]. split; [exact Hlog|]. split; [reflexivity|].
    apply clip_process_image_rest_log, Hslot.
Qed.

(** Two first [/ocr] requests whose segments interleave: both load
    functions run before either upload is read, and one model is built. *)
Example two_first_requests :
  let r := mk_request PostOcr Demo.good_key Demo.small_image "" in
  let l := run_loop Demo.env
             [Accept r; Accept r; Resume 0; Resume 1; Resume 0; Resume 1;
              Resume 0; Resume 0]
             (boot_loop Demo.env 0) in
  log (lstate l) =
    [Constructed OCR; FileRead; Decoded; Invoked OCR; FileRead; Decoded; Invoked OCR] /\
  inflight l = [].
Proof. vm_compute. split; reflexivity. Qed.

(* ===================================================================== *)
(** ** Further properties: what requests leave alone *)
(* ===================================================================== *)

#[export] Instance slots_kept_preorder : PreOrder slots_kept.
Proof. split; unfold slots_kept; [intros s | intros a b c]; auto. Qed.

#[export] Instance others_untouched_preorder (k0 : option kind) :
  PreOrder (others_untouched k0).
Proof.
  split.
  - intros s k _. auto.
  - intros a b c Hab Hbc k Hk.
    destruct (Hab k Hk) as (H1 & H2 & H3), (Hbc k Hk) as (H4 & H5 & H6).
    repeat split; congruence.
Qed.

#[export] Instance watchdog_kept_preorder (env : Env) : PreOrder (watchdog_kept env).
Proof. split; unfold watchdog_kept; [intros s | intros a b c]; auto. Qed.

Lemma task_keeps_weaken (P Q : state -> state -> Prop) {A} (t : task A) :
  (forall s s', P s s' -> Q s s') -> task_keeps P t -> task_keeps Q t.
Proof.
  intros H. induction t as [m|m k IH]; simpl.
  - now apply keeps_weaken.
  - intros [Hm Hk]. split; [now apply (keeps_weaken P) | auto].
Qed.

Lemma same_models_slots_kept (s s' : state) : same_models s s' -> slots_kept s s'.
Proof. intros [_ H] k h. now rewrite H. Qed.

Lemma same_models_others (k0 : option kind) (s s' : state) :
  same_models s s' -> others_untouched k0 s s'.
Proof.
  intros [Hlog Hslot] k _. unfold constructions, invocations.
  now rewrite Hlog, Hslot.
Qed.

Lemma slots_kept_add_log (ev : event) (s : state) : slots_kept s (add_log ev s).
Proof. intros k h. now rewrite slot_add_log. Qed.

(** Logging an event of kind [k0], or of no kind, leaves the other kinds
    alone. *)
Lemma others_untouched_add_log (k0 : option kind) (ev : event) (s : state) :
  (forall k, k0 <> Some k ->
     event_is_constructed k ev = false /\ event_is_invoked k ev = false) ->
  others_untouched k0 s (add_log ev s).
Proof.
  intros Hev k Hk. destruct (Hev k Hk) as [Hc Hi].
  rewrite slot_add_log, constructions_add_log, invocations_add_log, Hc, Hi.
  repeat split; lia.
Qed.

Lemma kind_eqb_neq (a b : kind) : a <> b -> kind_eqb a b = false.
Proof. destruct a, b; simpl; congruence. Qed.

Lemma load_model_keeps_slots (env : Env) (k : kind) :
  keeps slots_kept (load_model env k).
Proof.
  intros s. rewrite load_model_run.
  destruct (handle_after_load env k s); simpl; [reflexivity|].
  unfold loaded_state. destruct (slot k s) as [h0|] eqn:Hs; [reflexivity|].
  destruct (loader env k) as [m|h1]; [reflexivity|].
  intros k' h' Hk'. rewrite slot_set_slot, slot_add_log.
  destruct (kind_eqb k' k) eqn:E; [|exact Hk'].
  apply kind_eqb_eq in E; subst k'. congruence.
Qed.

Lemma load_model_keeps_others (env : Env) (k : kind) :
  keeps (others_untouched (Some k)) (load_model env k).
Proof.
  intros s. rewrite load_model_run.
  destruct (handle_after_load env k s); simpl; [reflexivity|].
  unfold loaded_state. destruct (slot k s) as [h0|] eqn:Hs; [reflexivity|].
  destruct (loader env k) as [m|h1]; [reflexivity|].
  intros k' Hk'.
  assert (Hne : kind_eqb k' k = false) by (apply kind_eqb_neq; congruence).
  rewrite slot_set_slot, slot_add_log, Hne.
  unfold constructions, invocations; simpl log.
  rewrite !filter_app, !List.length_app; simpl. rewrite Hne. simpl.
  repeat split; lia.
Qed.

(** *** Code that neither replaces the process nor raises outside [Q] *)

Section OnlyRaises.

Variable Q : exn -> Prop.

Lemma only_raises_ret {A} (a : A) : only_raises Q (ret a).
Proof. intros s. exact I. Qed.

Lemma only_raises_gets {A} (f : state -> A) : only_raises Q (gets f).
Proof. intros s. exact I. Qed.

Lemma only_raises_modify (f : state -> state) : only_raises Q (modify f).
Proof. intros s. exact I. Qed.

Lemma only_raises_raise {A} (e : exn) : Q e -> only_raises Q (@raise A e).
Proof. intros H s. exact H. Qed.

Lemma only_raises_call {A} (r : fallible A) :
  (forall m, Q (Exception m)) -> only_raises Q (call r).
Proof. intros H. destruct r; [apply only_raises_raise, H | apply only_raises_ret]. Qed.

Lemma only_raises_bind {A B} (m : M A) (f : A -> M B) :
  only_raises Q m -> (forall a, only_raises Q (f a)) -> only_raises Q (bind m f).
Proof.
  intros Hm Hf s. unfold bind. specialize (Hm s).
  destruct (m s) as [[a|e|p a] s']; simpl in *; auto. apply Hf.
Qed.

(** A [try] block hides what its body raises. *)
Lemma only_raises_try {A} (Q' : exn -> Prop) (body : M A) (handler : exn -> M A) :
  only_raises Q' body -> (forall e, only_raises Q (handler e)) ->
  only_raises Q (try_except body handler).
Proof.
  intros Hb Hh s. unfold try_except. specialize (Hb s).
  destruct (body s) as [[a|e|p a] s']; simpl in *; auto. apply Hh.
Qed.

Lemma only_raises_run_task {A} (t : task A) :
  task_only_raises Q t -> only_raises Q (run_task t).
Proof.
  induction t as [m|m k IH]; simpl; [auto|].
  intros [Hm Hk]. apply only_raises_bind; auto.
Qed.

End OnlyRaises.

Ltac raises_step :=
  match goal with
  | |- only_raises _ (bind _ _) => apply only_raises_bind; [ | intros ]
  | |- only_raises _ (try_except _ _) =>
      apply (only_raises_try _ (fun _ => True)); [ | intros ]
  | |- only_raises _ (ret _) => apply only_raises_ret
  | |- only_raises _ (gets _) => apply only_raises_gets
  | |- only_raises _ (modify _) => apply only_raises_modify
  | |- only_raises _ (raise _) => apply only_raises_raise; exact I
  | |- only_raises _ (call _) => apply only_raises_call; intros; exact I
  | |- only_raises _ (match ?x with _ => _ end) => destruct x
  | |- only_raises _ (if ?x then _ else _) => destruct x
  end.

Lemma route_eq_dec (a b : route) : {a = b} + {a <> b}.
Proof. decide equality. Qed.

Section MoreFrames.

Variable env : Env.

Ltac unfold_handlers :=
  unfold file_read, process_image_try, clip_process_image_try, soft_fail_handler,
    imdecode, invoke_rapid_ocr, invoke_clip_image, invoke_clip_txt, print.

Ltac split_task :=
  simpl; repeat (match goal with |- _ /\ _ => split end);
  rewrite ?load_ocr_model_eq, ?load_clip_img_model_eq, ?load_clip_txt_model_eq.

Lemma check_activity_keeps (P : state -> state -> Prop) `{!PreOrder P}
      (req : request) :
  keeps P (check_activity_reset env) -> task_keeps P (endpoint env req) ->
  task_keeps P (check_activity env req).
Proof.
  intros Hr He. simpl. split; [exact Hr|].
  unfold route_handler, depends_verify_header.
  destruct (api_key req) as [k|]; simpl.
  - apply task_keeps_prepend; [typeclasses eauto | | exact He].
    apply verify_header_keeps; typeclasses eauto.
  - apply keeps_raise. typeclasses eauto.
Qed.

Lemma endpoint_keeps_slots (req : request) :
  task_keeps slots_kept (endpoint env req).
Proof.
  unfold endpoint. destruct (path req); split_task;
    try apply load_model_keeps_slots; unfold_handlers.
  all: repeat first
    [ keeps_step
    | apply slots_kept_add_log
    | apply load_model_keeps_slots
    | apply restart_program_keeps
    | solve [typeclasses eauto] ].
Qed.

Ltac other_kinds :=
  apply others_untouched_add_log;
  let k := fresh "k" in let Hk := fresh "Hk" in
  intros k Hk; destruct k; try (exfalso; apply Hk; reflexivity); split; reflexivity.

Lemma endpoint_keeps_others (req : request) :
  task_keeps (others_untouched (route_kind (path req))) (endpoint env req).
Proof.
  unfold endpoint. destruct (path req); split_task;
    try apply load_model_keeps_others; unfold_handlers.
  all: repeat first
    [ keeps_step
    | other_kinds
    | apply load_model_keeps_others
    | apply restart_program_keeps
    | solve [typeclasses eauto] ].
Qed.

Lemma serve_keeps (P : state -> state -> Prop) `{!PreOrder P}
      (req : request) (s : state) :
  keeps P (check_activity_reset env) -> task_keeps P (endpoint env req) ->
  P s (snd (serve env req s)).
Proof.
  intros Hr He. unfold serve.
  apply (keeps_run_task P). now apply check_activity_keeps.
Qed.

Lemma reset_keeps_models_weaker (P : state -> state -> Prop) :
  (forall s s', same_models s s' -> P s s') ->
  keeps P (check_activity_reset env).
Proof.
  intros H. eapply keeps_weaken; [exact H|].
  apply check_activity_reset_keeps_models.
Qed.

(** Every endpoint but [/restart_v2] keeps the process and raises no
    [HTTPException]. *)
Lemma endpoint_only_raises (req : request) :
  path req <> PostRestartV2 ->
  task_only_raises plain_exception (endpoint env req).
Proof.
  intros Hp. unfold endpoint. destruct (path req); try congruence; split_task;
    unfold load_model, construct; unfold_handlers.
  all: repeat raises_step.
Qed.

Lemma check_activity_reset_returns (Q : exn -> Prop) :
  only_raises Q (check_activity_reset env).
Proof. intros s. now rewrite check_activity_reset_run. Qed.

End MoreFrames.

(** A request replaces the process only as an authenticated
    [/restart_v2]. *)
Lemma serve_keeps_process (env : Env) (req : request) (s : state) :
  ~ forces_restart env req ->
  forall p a, fst (serve env req s) <> Replaced p a.
Proof.
  intros Hn p a H. rewrite serve_unfold in H.
  unfold route_handler, depends_verify_header in H.
  destruct (api_key req) as [k|] eqn:Hk; [|discriminate H].
  rewrite run_task_prepend in H. unfold bind in H. rewrite verify_header_run in H.
  destruct (String.eqb_spec k (api_auth_key env)) as [->|Hne]; [|discriminate H].
  destruct (route_eq_dec (path req) PostRestartV2) as [Hp|Hp].
  - apply Hn. now split.
  - pose proof (only_raises_run_task _ _ (endpoint_only_raises env req Hp)
                  (reset_state env s)) as Hq.
    now rewrite H in Hq.
Qed.

(** Such a request leaves the process, with the state [serve] leaves. *)
Lemma arrive_keeps_process (env : Env) (req : request) (sys : system) :
  ~ forces_restart env req ->
  arrive env req sys =
  {| proc := snd (serve env req (proc sys)); fired := fired sys; forced := forced sys |}.
Proof.
  intros Hn. unfold arrive.
  pose proof (serve_keeps_process env req (proc sys) Hn) as H.
  destruct (serve env req (proc sys)) as [[r|e|p a] s']; simpl in *;
    [reflexivity | reflexivity | now destruct (H p a)].
Qed.

(** X1: every request, whatever its route, its key (wrong or missing
    included) and its outcome, goes through the watchdog reset and through
    nothing else that touches timers: the referenced timer is cancelled,
    one new timer is created, started at the current time for the
    configured interval and referenced; no timer object is ever removed. *)
Theorem every_request_rearms_watchdog (env : Env) (req : request) (s : state) :
  let s' := snd (serve env req s) in
  timers s' = (cancel_current s ++ [armed_timer env (clock s)])%list /\
  restart_timer s' = Some (List.length (timers s)) /\
  List.length (timers s') = S (List.length (timers s)) /\
  clock s' = clock s.
Proof.
  cbv zeta. destruct (serve_watchdog env req s) as (Hc & Ht & Hr).
  rewrite Ht, Hr, Hc. unfold reset_state; simpl.
  rewrite List.length_app, length_cancel_current. simpl.
  repeat split. lia.
Qed.

(** X2: no request evicts or replaces a loaded model as long as the
    process lives: a slot that holds a handle holds the same handle in
    the running process after any request but an authenticated
    [/restart_v2], which replaces the process. *)
Theorem loaded_model_is_kept
    (env : Env) (req : request) (sys : system) (k : kind) (h : handle) :
  ~ forces_restart env req ->
  slot k (proc sys) = Some h ->
  slot k (proc (arrive env req sys)) = Some h.
Proof.
  intros Hn. rewrite (arrive_keeps_process env req sys Hn). simpl proc.
  revert k h. change (slots_kept (proc sys) (snd (serve env req (proc sys)))).
  apply serve_keeps; [typeclasses eauto | | apply endpoint_keeps_slots].
  apply reset_keeps_models_weaker, same_models_slots_kept.
Qed.

Lemma loaded_model_is_kept_witness :
  ~ forces_restart Demo.env (mk_request PostRestartV2 "guess" [] "") /\
  slot OCR
    (proc (arrive Demo.env (mk_request PostOcr Demo.good_key Demo.small_image "")
             (start Demo.env 0))) = Some (Handle 1) /\
  slot OCR
    (proc (arrive Demo.env (mk_request PostRestartV2 "guess" [] "")
             (arrive Demo.env (mk_request PostOcr Demo.good_key Demo.small_image "")
                (start Demo.env 0)))) = Some (Handle 1).
Proof.
  assert (Hn : ~ forces_restart Demo.env (mk_request PostRestartV2 "guess" [] "")).
  { intros [_ Hk]. discriminate Hk. }
  split; [exact Hn|]. split; [reflexivity|].
  apply (loaded_model_is_kept Demo.env (mk_request PostRestartV2 "guess" [] "")
           _ OCR (Handle 1) Hn).
  reflexivity.
Defined.

(** X3: a request works on the model of its own route only: after any
    request but an authenticated [/restart_v2], the running process has,
    for every other kind, the slot, the number of constructions and the
    number of engine calls it had; [/check], [/restart] and a
    [/restart_v2] that is refused touch no kind at all. *)
Theorem request_touches_own_model_only
    (env : Env) (req : request) (sys : system) (k : kind) :
  ~ forces_restart env req ->
  route_kind (path req) <> Some k ->
  slot k (proc (arrive env req sys)) = slot k (proc sys) /\
  constructions k (proc (arrive env req sys)) = constructions k (proc sys) /\
  invocations k (proc (arrive env req sys)) = invocations k (proc sys).
Proof.
  intros Hn. rewrite (arrive_keeps_process env req sys Hn). simpl proc.
  revert k.
  change (others_untouched (route_kind (path req)) (proc sys)
            (snd (serve env req (proc sys)))).
  apply serve_keeps; [typeclasses eauto | | apply endpoint_keeps_others].
  apply reset_keeps_models_weaker, same_models_others.
Qed.

Lemma request_touches_own_model_only_witness :
  ~ forces_restart Demo.env (mk_request PostOcr Demo.good_key Demo.small_image "") /\
  slot ClipImage
    (proc (arrive Demo.env (mk_request PostOcr Demo.good_key Demo.small_image "")
             (start Demo.env 0))) = None /\
  invocations ClipText
    (proc (arrive Demo.env (mk_request PostOcr Demo.good_key Demo.small_image "")
             (start Demo.env 0))) = 0%nat.
Proof.
  assert (Hn : ~ forces_restart Demo.env
                 (mk_request PostOcr Demo.good_key Demo.small_image "")).
  { intros [Hp _]. discriminate Hp. }
  split; [exact Hn|]. split.
  - apply (request_touches_own_model_only Demo.env
      (mk_request PostOcr Demo.good_key Demo.small_image "") (start Demo.env 0)
      ClipImage Hn).
    discriminate.
  - apply (request_touches_own_model_only Demo.env
      (mk_request PostOcr Demo.good_key Demo.small_image "") (start Demo.env 0)
      ClipText Hn).
    discriminate.
Defined.

(** X4: the process image is replaced by a request exactly when the
    request is for [/restart_v2] and carries the configured key; no other
    route and no rejected request ever calls [os.execl]. *)
Theorem only_restart_v2_replaces (env : Env) (req : request) (s : state) :
  (exists p a, fst (serve env req s) = Replaced p a) <->
  path req = PostRestartV2 /\ api_key req = Some (api_auth_key env).
Proof.
  split.
  - intros (p & a & H). rewrite serve_unfold in H.
    unfold route_handler, depends_verify_header in H.
    destruct (api_key req) as [k|] eqn:Hk; [|discriminate H].
    rewrite run_task_prepend in H. unfold bind in H. rewrite verify_header_run in H.
    destruct (String.eqb_spec k (api_auth_key env)) as [->|Hne]; [|discriminate H].
    split; [|reflexivity].
    destruct (route_eq_dec (path req) PostRestartV2) as [Hp|Hp]; [exact Hp|exfalso].
    pose proof (only_raises_run_task _ _ (endpoint_only_raises env req Hp)
                  (reset_state env s)) as Hq.
    now rewrite H in Hq.
  - intros [Hp Hk]. rewrite (serve_authenticated env req s Hk).
    unfold endpoint. rewrite Hp. simpl. eauto.
Qed.

(** X5: a request that carries a key ends with an [HTTPException] exactly
    when the key differs from the secret, and then with status 401 and the
    detail "Invalid API key": no endpoint answers a valid key with an HTTP
    error of its own. *)
Theorem http_error_only_from_auth
    (env : Env) (r : route) (key : string) (f : list Byte.byte) (t : string)
    (s : state) (c : Z) (d : string) :
  fst (serve env (mk_request r key f t) s) = Raised (HTTPException c d) <->
  key <> api_auth_key env /\ c = 401 /\ d = "Invalid API key".
Proof.
  rewrite (serve_with_key env (mk_request r key f t) key s eq_refl).
  destruct (String.eqb_spec key (api_auth_key env)) as [->|Hne]; split.
  - intros H. exfalso.
    destruct (route_eq_dec r PostRestartV2) as [->|Hp].
    + discriminate H.
    + pose proof (only_raises_run_task _ _
        (endpoint_only_raises env (mk_request r (api_auth_key env) f t) Hp)
        (reset_state env s)) as Hq.
      rewrite H in Hq. exact Hq.
  - intros [Hne _]. congruence.
  - simpl. intros [= <- <-]. auto.
  - intros (_ & -> & ->). reflexivity.
Qed.

Lemma within_bound_out_of_range (img : image) :
  within_bound img = negb (out_of_range img).
Proof.
  unfold within_bound, out_of_range. destruct (shape img) as [[h w] c].
  rewrite negb_orb, !Z.leb_antisym. reflexivity.
Qed.

(** X6: how often a request calls its engine.  [/ocr] calls it once when
    the model is there, the upload decodes to an image and width and
    height are both at most 10000 (10000 itself is accepted), and not at
    all otherwise; [/clip/img] calls it once whenever the decoder returns,
    also when it returns [None]; [/clip/txt] calls it once.  A request
    whose loader raises calls nothing. *)
Theorem engine_calls_per_request
    (env : Env) (f : list Byte.byte) (t : string) (s : state) :
  let ocr_req := mk_request PostOcr (api_auth_key env) f t in
  let clip_req := mk_request PostClipImg (api_auth_key env) f t in
  let txt_req := mk_request PostClipTxt (api_auth_key env) f t in
  invocations OCR (snd (serve env ocr_req s)) =
    (invocations OCR s +
     match handle_after_load env OCR s, cv2_imdecode env f with
     | inr _, inr (Some img) => if within_bound img then 1 else 0
     | _, _ => 0
     end)%nat /\
  invocations ClipImage (snd (serve env clip_req s)) =
    (invocations ClipImage s +
     match handle_after_load env ClipImage s, cv2_imdecode env f with
     | inr _, inr _ => 1
     | _, _ => 0
     end)%nat /\
  invocations ClipText (snd (serve env txt_req s)) =
    (invocations ClipText s +
     match handle_after_load env ClipText s with
     | inr _ => 1
     | inl _ => 0
     end)%nat.
Proof.
  intros ocr_req clip_req txt_req. split; [|split].
  - rewrite (serve_ocr env ocr_req s eq_refl eq_refl).
    destruct (handle_after_load env OCR s) as [m|hd] eqn:Hh;
      [simpl; rewrite invocations_reset_state; lia|].
    rewrite (process_image_rest_run env _ hd) by (apply (loaded_slot_reset env OCR), Hh).
    simpl file.
    destruct (cv2_imdecode env f) as [m|[img|]]; simpl;
      try (rewrite !invocations_add_log; simpl;
           rewrite invocations_loaded_state, invocations_reset_state; lia).
    rewrite within_bound_out_of_range.
    destruct (out_of_range img); simpl;
      [|destruct (rapid_ocr_call env hd img); simpl];
      rewrite !invocations_add_log; simpl;
      rewrite invocations_loaded_state, invocations_reset_state; lia.
  - rewrite (serve_clip_img env clip_req s eq_refl eq_refl).
    destruct (handle_after_load env ClipImage s) as [m|hd] eqn:Hh;
      [simpl; rewrite invocations_reset_state; lia|].
    rewrite (clip_process_image_rest_run env _ hd)
      by (apply (loaded_slot_reset env ClipImage), Hh).
    simpl file.
    destruct (cv2_imdecode env f) as [m|img]; simpl;
      [|destruct (clip__process_image env img hd); simpl];
      rewrite !invocations_add_log; simpl;
      rewrite invocations_loaded_state, invocations_reset_state; lia.
  - rewrite (serve_clip_txt env txt_req s eq_refl eq_refl). simpl text.
    destruct (handle_after_load env ClipText s) as [m|hd] eqn:Hh.
    + simpl. rewrite load_clip_txt_model_eq. unfold bind at 1.
      rewrite load_model_run, handle_after_load_reset, Hh. simpl.
      rewrite invocations_reset_state. lia.
    + rewrite (clip_process_txt_run env t hd) by (now rewrite handle_after_load_reset).
      destruct (clip__process_txt env t hd); simpl;
        rewrite invocations_add_log; simpl;
        rewrite invocations_loaded_state, invocations_reset_state; lia.
Qed.

(** X7: when the upload decodes to an image within the bound and the
    engine returns, [/ocr] answers with the normalized result and no
    message, and nothing is printed.  This is also so when the engine
    found nothing and returned [None]: the answer carries three empty
    lists, it is not the soft-fail shape. *)
Theorem ocr_success_shape
    (env : Env) (f : list Byte.byte) (t : string) (s : state)
    (img : image) (hd : handle) (res : option (list detection)) (el : list float) :
  handle_after_load env OCR s = inr hd ->
  cv2_imdecode env f = inr (Some img) ->
  within_bound img = true ->
  rapid_ocr_call env hd img = inr (res, el) ->
  let out := serve env (mk_request PostOcr (api_auth_key env) f t) s in
  fst out =
    Returned {| result := OcrDict (trans_result res);
                msg := None; title := None; help := None |} /\
  (res = None ->
   fst out = Returned {| result := OcrDict {| texts := []; scores := []; boxes := [] |};
                         msg := None; title := None; help := None |}) /\
  log (snd out) =
    (log (loaded_state env OCR (reset_state env s))
       ++ [FileRead; Decoded; Invoked OCR])%list.
Proof.
  intros Hh Hdec Hin Hcall out. unfold out.
  rewrite (serve_ocr env (mk_request PostOcr (api_auth_key env) f t) s eq_refl eq_refl), Hh.
  rewrite (process_image_rest_run env _ hd) by (apply (loaded_slot_reset env OCR), Hh).
  simpl file. rewrite Hdec.
  rewrite within_bound_out_of_range in Hin. apply negb_true_iff in Hin.
  rewrite Hin, Hcall. simpl.
  split; [reflexivity|]. split; [now intros ->|].
  now rewrite <- !app_assoc.
Qed.

Lemma ocr_success_shape_witness :
  fst (serve Demo2.env (mk_request PostOcr Demo.good_key Demo.small_image "")
         (boot Demo2.env 0))
  = Returned {| result := OcrDict {| texts := []; scores := []; boxes := [] |};
                msg := None; title := None; help := None |}.
Proof.
  exact (proj1 (proj2 (ocr_success_shape Demo2.env Demo.small_image "" (boot Demo2.env 0)
    {| shape := (16, 32, 3); pixels := [Byte.xff] |} (Handle 1) None []
    eq_refl eq_refl eq_refl eq_refl)) eq_refl).
Defined.

(** X8: the text model at startup.  When the loader succeeds, a process
    started with the eager flag has the text model loaded before the first
    request, and the first [/clip/txt] request constructs nothing; without
    the flag the slot of a fresh process is empty and the first request
    constructs the model.  Either way one model has been constructed after
    that request. *)
Theorem eager_text_model
    (env : Env) (now : Z) (f : list Byte.byte) (t : string) (h : handle) :
  clip__load_txt_model env = inr h ->
  let s0 := boot env now in
  let s1 := snd (serve env (mk_request PostClipTxt (api_auth_key env) f t) s0) in
  clip_txt_model s0 = (if env_auto_load_txt_modal env then Some h else None) /\
  constructions ClipText s0 = (if env_auto_load_txt_modal env then 1 else 0)%nat /\
  clip_txt_model s1 = Some h /\
  constructions ClipText s1 = 1%nat /\
  log s1 = [Constructed ClipText; Invoked ClipText].
Proof.
  intros Hl s0 s1.
  assert (Hboot : s0 = if env_auto_load_txt_modal env
                       then set_slot ClipText (Some h)
                              (add_log (Constructed ClipText) (initial_state now))
                       else initial_state now).
  { unfold s0, boot, startup_event.
    destruct (env_auto_load_txt_modal env); [|reflexivity].
    rewrite load_clip_txt_model_eq, load_model_run.
    unfold handle_after_load, loaded_state, loader; simpl slot.
    now rewrite Hl. }
  assert (Hh : handle_after_load env ClipText (reset_state env s0) = inr h).
  { rewrite handle_after_load_reset, Hboot. unfold handle_after_load, loader.
    destruct (env_auto_load_txt_modal env); simpl; [reflexivity | exact Hl]. }
  assert (Hrun : s1 = add_log (Invoked ClipText)
                        (loaded_state env ClipText (reset_state env s0))).
  { unfold s1.
    rewrite (serve_clip_txt env (mk_request PostClipTxt (api_auth_key env) f t) s0
               eq_refl eq_refl).
    simpl text. rewrite (clip_process_txt_run env t h _ Hh).
    now destruct (clip__process_txt env t h). }
  rewrite Hrun, Hboot. unfold loaded_state, loader.
  destruct (env_auto_load_txt_modal env); simpl; rewrite ?Hl; repeat split.
Qed.

Lemma eager_text_model_witness :
  clip_txt_model (boot Demo2.env 0) = Some (Handle 3) /\
  log (snd (serve Demo2.env (mk_request PostClipTxt Demo.good_key [] "cat")
              (boot Demo2.env 0)))
  = [Constructed ClipText; Invoked ClipText].
Proof.
  pose proof (eager_text_model Demo2.env 0 [] "cat" (Handle 3) eq_refl) as H.
  exact (conj (proj1 H) (proj2 (proj2 (proj2 (proj2 H))))).
Defined.

(* ===================================================================== *)
(** ** Further properties: restarts, the event loop, the rest of the module *)
(* ===================================================================== *)

(** A fresh process has no OCR model and no image model, whatever the
    eager flag says. *)
Lemma boot_image_models (env : Env) (now : Z) :
  rapid_ocr (boot env now) = None /\ clip_img_model (boot env now) = None /\
  constructions OCR (boot env now) = 0%nat /\
  constructions ClipImage (boot env now) = 0%nat.
Proof.
  unfold boot, startup_event.
  destruct (env_auto_load_txt_modal env); [|now repeat split].
  rewrite load_clip_txt_model_eq.
  pose proof (load_model_keeps_others env ClipText (initial_state now)) as H.
  destruct (H OCR ltac:(discriminate)) as (H1 & H2 & _).
  destruct (H ClipImage ltac:(discriminate)) as (H3 & H4 & _).
  simpl in *. now repeat split.
Qed.

(** X9: a restart empties the registry.  After an authenticated
    [/restart_v2] the new process has neither the OCR nor the image model
    and no timer; and when time passes, either the watchdog does not fire
    and every slot is as it was, or it fires once and the new process is
    in that same fresh state. *)
Theorem restart_unloads_models
    (env : Env) (sys : system) (f : list Byte.byte) (t : string) (T : Z) :
  let sys' := arrive env (mk_request PostRestartV2 (api_auth_key env) f t) sys in
  let sysT := elapse env T sys in
  (rapid_ocr (proc sys') = None /\ clip_img_model (proc sys') = None /\
   timers (proc sys') = [] /\ restart_timer (proc sys') = None) /\
  ((fired sysT = fired sys /\ forall k, slot k (proc sysT) = slot k (proc sys)) \/
   (fired sysT = S (fired sys) /\
    rapid_ocr (proc sysT) = None /\ clip_img_model (proc sysT) = None /\
    timers (proc sysT) = [] /\ restart_timer (proc sysT) = None)).
Proof.
  intros sys' sysT. split.
  - unfold sys', arrive.
    rewrite (serve_authenticated env
      (mk_request PostRestartV2 (api_auth_key env) f t) _ eq_refl).
    simpl proc.
    destruct (boot_image_models env (clock (reset_state env (proc sys))))
      as (H1 & H2 & _).
    destruct (boot_watchdog env (clock (reset_state env (proc sys)))) as (_ & H3 & H4).
    auto.
  - unfold sysT.
    destruct (existsb (due (Z.max T (clock (proc sys)))) (timers (proc sys))) eqn:E.
    + right. rewrite (elapse_fires env T sys E). simpl.
      destruct (boot_image_models env (Z.max T (clock (proc sys)))) as (H1 & H2 & _).
      destruct (boot_watchdog env (Z.max T (clock (proc sys)))) as (_ & H3 & H4).
      auto.
    + left. rewrite (elapse_quiet env T sys E). simpl. split; [reflexivity|].
      now intros [].
Qed.

Section LoopInvariant.

Variable env : Env.
Variable Inv : state -> Prop.

Hypothesis Inv_boot : forall now, Inv (boot env now).
Hypothesis Inv_clock : forall now s, Inv s -> Inv (set_clock now s).
Hypothesis Inv_request :
  forall req, task_keeps (fun s s' => Inv s -> Inv s') (check_activity env req).

Let good (l : loop) : Prop :=
  Inv (lstate l) /\
  Forall (task_keeps (fun s s' => Inv s -> Inv s')) (inflight l).

Lemma good_boot (now : Z) : good (boot_loop env now).
Proof. split; simpl; [apply Inv_boot | constructor]. Qed.

Lemma good_step (l : loop) (ev : sched) : good l -> good (loop_step env l ev).
Proof.
  intros [Hs Hts]. destruct ev as [req|i|now]; simpl.
  - split; simpl; [exact Hs|].
    apply Forall_app; split; [exact Hts|].
    constructor; [apply Inv_request | constructor].
  - unfold resume.
    destruct (nth_error (inflight l) i) as [t|] eqn:Hi; [|now split].
    pose proof (Forall_nth_error _ _ _ _ Hts Hi) as Ht.
    destruct t as [m|m k]; simpl in Ht.
    + specialize (Ht (lstate l) Hs).
      destruct (m (lstate l)) as [[r|e|p a] s']; simpl in Ht;
        try apply good_boot; (split; simpl; [exact Ht | now apply Forall_remove_nth]).
    + destruct Ht as [Hm Hk]. specialize (Hm (lstate l) Hs).
      destruct (m (lstate l)) as [[r|e|p a] s']; simpl in Hm;
        try apply good_boot; split; simpl; try exact Hm.
      * apply Forall_update_nth; auto.
      * now apply Forall_remove_nth.
  - destruct (existsb _ _).
    + apply good_boot.
    + split; simpl; [now apply Inv_clock | exact Hts].
Qed.

(** An invariant of the process that every segment of every request
    keeps holds on every schedule of the event loop. *)
Lemma loop_invariant (evs : list sched) (now : Z) :
  Inv (lstate (run_loop env evs (boot_loop env now))).
Proof.
  assert (H : forall l, good l -> good (run_loop env evs l)).
  { induction evs as [|ev evs' IH]; intros l Hl; simpl; [exact Hl|].
    apply IH, good_step, Hl. }
  apply H, good_boot.
Qed.

End LoopInvariant.

Lemma check_activity_keeps_watchdog_ok (env : Env) (req : request) :
  task_keeps (watchdog_kept env) (check_activity env req).
Proof.
  apply check_activity_keeps; [typeclasses eauto | |].
  - intros s [lb H]. rewrite check_activity_reset_run. simpl.
    eexists. apply (watchdog_ok_reset env lb), H.
  - eapply task_keeps_weaken; [|apply endpoint_keeps_watchdog].
    intros s s' Hw [lb H]. exists lb. eapply watchdog_ok_same; eauto.
Qed.

(** X10: with any number of requests in flight and whatever order the
    event loop runs their segments in, at most one watchdog timer is
    pending: the reset of the middleware is one uninterrupted segment and
    no other segment touches a timer. *)
Theorem loop_at_most_one_timer (env : Env) (evs : list sched) (now : Z) :
  (pending_timers (lstate (run_loop env evs (boot_loop env now))) <= 1)%nat.
Proof.
  destruct (loop_invariant env (fun s => exists lb, watchdog_ok env lb s))
    with (evs := evs) (now := now) as [lb H].
  - intros t. exists 0. apply watchdog_ok_no_timers, boot_watchdog.
  - intros t s [lb H]. exists lb. now apply watchdog_ok_set_clock.
  - intros req. apply check_activity_keeps_watchdog_ok.
  - eapply watchdog_ok_at_most_one; eauto.
Qed.

(** X11: [trans_result] works detection by detection: the result for two
    lists put together is the two results put together, field by field,
    and an empty list gives what [None] gives. *)
Theorem trans_result_app (l1 l2 : list detection) :
  texts (trans_result (Some (l1 ++ l2)%list)) =
    (texts (trans_result (Some l1)) ++ texts (trans_result (Some l2)))%list /\
  scores (trans_result (Some (l1 ++ l2)%list)) =
    (scores (trans_result (Some l1)) ++ scores (trans_result (Some l2)))%list /\
  boxes (trans_result (Some (l1 ++ l2)%list)) =
    (boxes (trans_result (Some l1)) ++ boxes (trans_result (Some l2)))%list /\
  trans_result (Some []) = trans_result None.
Proof.
  rewrite !trans_result_maps. simpl. rewrite !map_app. repeat split.
Qed.

(** X12: [GET /] takes no key and always returns the page; it loads no
    model and calls no engine, but like every request it goes through the
    middleware, so it re-arms the watchdog. *)
Theorem top_info_is_open (env : Env) (s : state) :
  serve_top_info env s = (Returned html_content, reset_state env s) /\
  same_models s (reset_state env s) /\
  timers (reset_state env s) = (cancel_current s ++ [armed_timer env (clock s)])%list /\
  existsb (due (clock s + server_restart_time env)) (timers (reset_state env s)) = true.
Proof.
  split; [|split; [|split]].
  - unfold serve_top_info, with_activity_check. simpl. unfold bind.
    now rewrite check_activity_reset_run.
  - apply same_models_reset.
  - reflexivity.
  - unfold reset_state; simpl. rewrite existsb_app. apply orb_true_iff. right.
    simpl. unfold due; simpl. rewrite orb_false_r. apply Z.leb_refl.
Qed.

(** X13: when [API_AUTH_KEY] is not set, the secret is the built-in
    default: exactly the key "mt_photos_ai_extra" gets past the
    dependency, on every route. *)
Theorem default_secret_when_unset
    (env : Env) (environ : string -> option string)
    (r : route) (key : string) (f : list Byte.byte) (t : string) (s : state) :
  api_auth_key env = read_api_auth_key environ ->
  environ "API_AUTH_KEY" = None ->
  (verify_header env key s = (Returned key, s) <-> key = "mt_photos_ai_extra") /\
  serve env (mk_request r key f t) s =
    (if String.eqb key "mt_photos_ai_extra"
     then run_task (endpoint env (mk_request r key f t)) (reset_state env s)
     else (Raised (HTTPException 401 "Invalid API key"), reset_state env s)).
Proof.
  intros Hcfg Hunset.
  assert (Hkey : api_auth_key env = "mt_photos_ai_extra").
  { rewrite Hcfg. unfold read_api_auth_key, getenv. now rewrite Hunset. }
  split.
  - rewrite verify_header_run, Hkey.
    destruct (String.eqb_spec key "mt_photos_ai_extra") as [->|Hne]; split; auto.
    + discriminate.
    + intros ->. congruence.
  - rewrite (serve_with_key env (mk_request r key f t) key s eq_refl), Hkey.
    reflexivity.
Qed.

Lemma default_secret_when_unset_witness :
  verify_header Demo.env "mt_photos_ai_extra" (boot Demo.env 0)
    = (Returned "mt_photos_ai_extra", boot Demo.env 0).
Proof.
  apply (proj1 (default_secret_when_unset Demo.env Demo2.no_variables
    PostCheck "mt_photos_ai_extra" [] "" (boot Demo.env 0) eq_refl eq_refl)).
  reflexivity.
Defined.

(** X14: the eager flag is on exactly when [AUTO_LOAD_TXT_MODAL] is set
    to the string "on"; unset, or set to anything else ("ON", "true",
    "1"), the process starts with no model loaded and nothing constructed. *)
Theorem eager_flag_needs_exactly_on
    (env : Env) (environ : string -> option string) (now : Z) :
  env_auto_load_txt_modal env = read_env_auto_load_txt_modal environ ->
  (env_auto_load_txt_modal env = true <-> environ "AUTO_LOAD_TXT_MODAL" = Some "on") /\
  (environ "AUTO_LOAD_TXT_MODAL" <> Some "on" -> boot env now = initial_state now).
Proof.
  intros Hcfg.
  assert (Hiff : env_auto_load_txt_modal env = true
                 <-> environ "AUTO_LOAD_TXT_MODAL" = Some "on").
  { rewrite Hcfg. unfold read_env_auto_load_txt_modal, getenv.
    destruct (environ "AUTO_LOAD_TXT_MODAL") as [v|].
    - rewrite String.eqb_eq. split; [now intros -> | now intros [= ->]].
    - simpl. split; discriminate. }
  split; [exact Hiff|].
  intros Hne. unfold boot, startup_event.
  destruct (env_auto_load_txt_modal env) eqn:E; [|reflexivity].
  exfalso. apply Hne, Hiff. reflexivity.
Qed.

Lemma eager_flag_needs_exactly_on_witness :
  boot Demo.env 0 = initial_state 0.
Proof.
  apply (proj2 (eager_flag_needs_exactly_on Demo.env Demo2.no_variables 0 eq_refl)).
  discriminate.
Defined.
